(** * noms: the Blob layer and the local chunk store

    A shallow embedding of
      - [types/compound_blob.go]: [compoundBlob], [compoundBlobReader]
        ([Read], [Seek], [findBlobOffset]) and the leaf producer [getLeaves];
      - [chunks/file_store.go] in its two variants: the one that keeps the
        index in an append-only [refMap] log replayed into a Go map, and the
        one that keeps it in an embedded key-value store.

    Go values are modelled as follows: [int], [int64] and [uint64] are [Z]
    with the wrap-around written where the code computes; [[]byte] is
    [list byte]; a [[20]byte] digest is a [list byte] of length 20; a Go map
    is a [gmap]; a panic ([d.Chk.*], an index out of range) is the
    [Panics] outcome. *)

From Stdlib Require Import ZArith Lia.
From Stdlib.Strings Require Import Byte.
From stdpp Require Import base list gmap strings.

Open Scope Z_scope.

(** ** Outcomes of Go calls *)

(** A Go call either returns, or panics; [OutOfFuel] is the model's own
    third outcome, for loops run with a bounded number of iterations. *)
Inductive outcome (A : Type) : Type :=
| Returns (a : A)
| Panics
| OutOfFuel.
Arguments Returns {A} a.
Arguments Panics {A}.
Arguments OutOfFuel {A}.

Definition obind {A B : Type} (m : outcome A) (k : A → outcome B) : outcome B :=
  match m with
  | Returns a => k a
  | Panics => Panics
  | OutOfFuel => OutOfFuel
  end.

Notation "'let!' x ':=' m 'in' k" := (obind m (fun x => k))
  (at level 10, x name, m at level 100, k at level 200, only parsing).

(** ** sort.Search (Go standard library)

    [[
    i, j := 0, n
    for i < j {
        h := int(uint(i+j) >> 1)
        if !f(h) { i = h + 1 } else { j = h }
    }
    return i
    ]] *)

Definition uint_of_int (x : Z) : Z := x mod 2 ^ 64.

Fixpoint Search_loop (fuel : nat) (f : Z → outcome bool) (i j : Z) : outcome Z :=
  if i <? j then
    match fuel with
    | O => OutOfFuel
    | S fuel' =>
        let h := Z.shiftr (uint_of_int (i + j)) 1 in
        let! b := f h in
        if negb b then Search_loop fuel' f (h + 1) j
        else Search_loop fuel' f i h
    end
  else Returns i.

(** The loop halves [j - i] at every turn, so [n] turns are more than
    enough; the fuel is the slice length. *)
Definition Search (n : Z) (f : Z → outcome bool) : outcome Z :=
  Search_loop (Z.to_nat n) f 0 n.

(** ** Blobs *)

(** A [Future] is identified with the Blob its [Deref] resolves to. *)
Inductive Blob : Type :=
| blobLeaf (data : list byte)
| compoundBlob (offsets : list Z) (futures : list Blob).

(** Go slice indexing [s[i]]: panics out of range. *)
Definition index {A : Type} (s : list A) (i : Z) : outcome A :=
  if (0 <=? i) && (i <? Z.of_nat (length s)) then
    match s !! Z.to_nat i with
    | Some a => Returns a
    | None => Panics
    end
  else Panics.

(** [compoundBlobReader.findBlobOffset], on the [offsets] of [cbr.cb]. *)
Definition findBlobOffset (offsets : list Z) (abs : Z) : outcome Z :=
  Search (Z.of_nat (length offsets))
    (fun i => let! o := index offsets i in Returns (o >? abs)).

(** [offsets] is strictly increasing. *)
Fixpoint strictly_increasing (O : list Z) : bool :=
  match O with
  | [] => true
  | o :: O' =>
      match O' with
      | [] => true
      | o' :: _ => (o <? o') && strictly_increasing O'
      end
  end.

(** [O[i-1]] with [O[-1] = 0]: where the byte range of child [i] starts. *)
Definition range_start (O : list Z) (i : nat) : Z :=
  match i with
  | O%nat => 0
  | S i' => default 0 (O !! i')
  end.

(** ** Byte readers *)

(** Go's [error] values met in this code: [nil] is [None].
    [db_ErrOther] is any error of the key-value library other than
    [ErrNotFound] (an I/O error, a corrupted table). *)
Inductive error : Type := io_EOF | db_ErrNotFound | db_ErrOther.

(** Go's builtin [copy(dst, src)]: overwrites the first
    [min(len(dst), len(src))] bytes of [dst] and returns that number. *)
Definition copy (dst src : list byte) : list byte * Z :=
  let n := Nat.min (length dst) (length src) in
  (take n src ++ drop n dst, Z.of_nat n).

(** Go's slice expression [p[n:]] and the write-back through it: the
    slice shares [p]'s array, so what a callee writes into [p[n:]] lands
    in [p] after its first [n] bytes. *)
Definition slice_from (p : list byte) (n : Z) : list byte := drop (Z.to_nat n) p.
Definition write_back (p : list byte) (n : Z) (tail : list byte) : list byte :=
  take (Z.to_nat n) p ++ tail.

(** Modelled from the spec: [blobLeaf] and its [Reader()] are not among the
    sources; the spec says that leaves hold bytes and "yield a byte reader".
    The model is Go's [bytes.Reader] over the leaf's data:
    [[
    if r.i >= int64(len(r.s)) { return 0, io.EOF }
    n = copy(b, r.s[r.i:]); r.i += int64(n); return
    ]] *)
Record bytesReader : Type := { rs : list byte; ri : Z }.

Definition bytesReader_Read (r : bytesReader) (b : list byte)
  : bytesReader * list byte * Z * option error :=
  if ri r >=? Z.of_nat (length (rs r)) then (r, b, 0, Some io_EOF)
  else
    let '(b', n) := copy b (slice_from (rs r) (ri r)) in
    ({| rs := rs r; ri := ri r + n |}, b', n, None).

Definition blobLeaf_Reader (data : list byte) : bytesReader :=
  {| rs := data; ri := 0 |}.

(** ** The leaves of a blob, in order

    What a single-threaded, depth-first, left-to-right walk of the tree
    meets: the data of every [blobLeaf]. *)
Fixpoint leavesInOrder (b : Blob) : list (list byte) :=
  match b with
  | blobLeaf data => [data]
  | compoundBlob _ futures => concat (map leavesInOrder futures)
  end.

(** The bytes of a blob: the concatenation of its leaves in that order. *)
Definition blobBytes (b : Blob) : list byte := concat (leavesInOrder b).

(** ** compoundBlobReader *)

(** The fields [Read] and [Seek] use. [leaves] is the channel the reader
    receives from: [None] is the nil channel; [Some ls] is a channel whose
    producer will deliver the leaves [ls], in this order, and then close
    it (that the goroutines of [getLeaves] deliver the leaves in order is
    the subject of the section on [getLeaves] below). *)
Record compoundBlobReader : Type := {
  leaves : option (list (list byte));
  curLeaf : option bytesReader;
  eof : bool;
  cb : Blob
}.

(** [compoundBlob.Reader]: a method of [compoundBlob], so [cb] is one. *)
Definition Reader (offsets : list Z) (futures : list Blob) : compoundBlobReader :=
  {| leaves := None; curLeaf := None; eof := false;
     cb := compoundBlob offsets futures |}.

(** [compoundBlobReader.Seek]:
    [[
    cbr.curLeaf = nil
    cbr.leaves = make(chan blobLeaf, 4)
    go getLeaves(cbr.cb, cbr.leaves)
    return 0, nil
    ]] *)
Definition Seek (cbr : compoundBlobReader) (offset : Z) (whence : Z)
  : compoundBlobReader * (Z * option error) :=
  ({| leaves := Some (leavesInOrder (cb cbr));
      curLeaf := None;
      eof := eof cbr;
      cb := cb cbr |},
   (0, None)).

(** The locals of [Read] that its closure [read] captures: the buffer
    [p] and the named results [n] and [err]. *)
Record readFrame : Type := { fp : list byte; fn : Z; ferr : option error }.

(** The closure [read] of [Read]:
    [[
    l, e := r.Read(p[n:])
    n += l
    if e != io.EOF { err = e; exit = true }
    return
    ]] *)
Definition read (r : bytesReader) (fr : readFrame) : bytesReader * readFrame * bool :=
  let '(r', tail, l, e) := bytesReader_Read r (slice_from (fp fr) (fn fr)) in
  let p' := write_back (fp fr) (fn fr) tail in
  let n' := fn fr + l in
  match e with
  | Some io_EOF => (r', {| fp := p'; fn := n'; ferr := ferr fr |}, false)
  | _ => (r', {| fp := p'; fn := n'; ferr := e |}, true)
  end.

(** [for blobLeaf := range cbr.leaves { cbr.curLeaf = blobLeaf.Reader();
    if read(cbr.curLeaf) { return } }]: the result is the leaves left in
    the channel, [cbr.curLeaf], the frame, and whether the function
    returned from inside the loop. *)
Fixpoint rangeLeaves (ls : list (list byte)) (cur : option bytesReader) (fr : readFrame)
  : list (list byte) * option bytesReader * readFrame * bool :=
  match ls with
  | [] => ([], cur, fr, false)
  | bl :: ls' =>
      let '(r', fr', exit) := read (blobLeaf_Reader bl) fr in
      if exit then (ls', Some r', fr', true)
      else rangeLeaves ls' (Some r') fr'
  end.

(** [compoundBlobReader.Read]: the reader after the call, the buffer [p]
    after the call, and the results [(n, err)]. *)
Definition Read (cbr : compoundBlobReader) (p : list byte)
  : compoundBlobReader * list byte * (Z * option error) :=
  if eof cbr then (cbr, p, (0, Some io_EOF))
  else
    let cbr := match leaves cbr with
               | None => fst (Seek cbr 0 0)
               | Some _ => cbr
               end in
    let fr := {| fp := p; fn := 0; ferr := None |} in
    let '(cur, fr, returned) :=
      match curLeaf cbr with
      | Some r =>
          let '(r', fr', exit) := read r fr in
          if exit then (None, fr', true) else (Some r', fr', false)
      | None => (None, fr, false)
      end in
    if returned then
      ({| leaves := leaves cbr; curLeaf := cur; eof := eof cbr; cb := cb cbr |},
       fp fr, (fn fr, ferr fr))
    else
      let '(ls', cur', fr', returned') :=
        rangeLeaves (default [] (leaves cbr)) cur fr in
      if returned' then
        ({| leaves := Some ls'; curLeaf := cur'; eof := eof cbr; cb := cb cbr |},
         fp fr', (fn fr', ferr fr'))
      else
        ({| leaves := Some ls'; curLeaf := cur'; eof := true; cb := cb cbr |},
         fp fr', (fn fr', ferr fr')).

(** A caller that reads with buffers of the given sizes, one [Read] per
    size, and keeps [p[:n]] of each: the bytes delivered, the results of
    the calls, and the reader at the end. *)
Fixpoint readWith (cbr : compoundBlobReader) (sizes : list nat)
  : list byte * list (Z * option error) * compoundBlobReader :=
  match sizes with
  | [] => ([], [], cbr)
  | sz :: sizes' =>
      let '(cbr', p', res) := Read cbr (replicate sz "000"%byte) in
      let '(bs, ress, cbr'') := readWith cbr' sizes' in
      (take (Z.to_nat (fst res)) p' ++ bs, res :: ress, cbr'')
  end.

(** A caller's calls on a reader, and the reader they leave. *)
Inductive readerCall : Type :=
| CallRead (p : list byte)
| CallSeek (offset whence : Z).

Definition call (cbr : compoundBlobReader) (c : readerCall) : compoundBlobReader :=
  match c with
  | CallRead p => fst (fst (Read cbr p))
  | CallSeek offset whence => fst (Seek cbr offset whence)
  end.

Definition calls (cbr : compoundBlobReader) (cs : list readerCall) : compoundBlobReader :=
  foldl call cbr cs.

Definition bytes_of (s : string) : list byte := String.list_byte_of_string s.

(** ** States of a reader *)

(** The leaves from the first one that is not empty. *)
Fixpoint skipEmpty (L : list (list byte)) : list (list byte) :=
  match L with
  | [] => []
  | [] :: L' => skipEmpty L'
  | _ :: _ => L
  end.

(** The state between two such reads: the channel still to deliver [L],
    no leaf under way. *)
Definition betweenLeaves (cbr : compoundBlobReader) (L : list (list byte)) : Prop :=
  leaves cbr = Some L ∧ eof cbr = false ∧
  match curLeaf cbr with
  | None => True
  | Some r => Z.of_nat (length (rs r)) ≤ ri r
  end.

Definition frame0 (p : list byte) : readFrame := {| fp := p; fn := 0; ferr := None |}.

(** What [read] keeps true of the frame of a [Read] on the buffer [p]. *)
Definition frameOk (p : list byte) (fr : readFrame) : Prop :=
  length (fp fr) = length p ∧
  0 ≤ fn fr ≤ Z.of_nat (length p) ∧
  drop (Z.to_nat (fn fr)) (fp fr) = drop (Z.to_nat (fn fr)) p.

(** ** getLeaves: goroutines and channels

    [[
    func getLeaves(b compoundBlob, out chan<- blobLeaf) {
        in := make(chan chan blobLeaf, cap(out))
        go func() {                                  // the spawner
            for _, f := range b.futures {
                f := f
                ch := make(chan blobLeaf, cap(out))
                in <- ch
                go func() {                          // the goroutine of ch
                    cb := f.Deref(b.cs).(Blob)
                    switch cb := cb.(type) {
                    case blobLeaf:     ch <- cb; close(ch)
                    case compoundBlob: getLeaves(cb, ch)
                    }
                }()
            }
            defer close(in)
        }()
        for ch := range in {                         // the drainer
            for bl := range ch { out <- bl }
        }
        close(out)
    }
    ]]

    The goroutines run interleaved, one step at a time, in any order the
    scheduler picks: that is the step relation [gstep]. A step is one
    channel operation, one [go], or one [Deref]; how long a [Deref] takes
    is how long the scheduler leaves its step untaken. *)

(** A buffered [chan blobLeaf]: the leaves in its buffer, oldest first,
    and whether it is closed. *)
Record chan : Type := { cbuf : list (list byte); cclosed : bool }.

Definition make_chan : chan := {| cbuf := []; cclosed := false |}.

(** Where the spawner is: not started by its [go] yet; at the head of
    its loop with the futures [fs] left; between [in <- ch] and the [go]
    of that channel's goroutine; returned ([close(in)] done). *)
Inductive spawner : Type :=
| SpPending (fs : list Blob)
| SpRange (fs : list Blob)
| SpGo (fs : list Blob)
| SpReturned.

(** Where the body of [getLeaves] is: at [go func()] of the spawner; at
    the receive of [for ch := range in]; at the receive of
    [for bl := range ch]; at [out <- bl]; at [close(out)]; returned. *)
Inductive drainer : Type :=
| DrGo
| DrRangeIn
| DrRangeCh
| DrSend (bl : list byte)
| DrClose
| DrReturned.

(** The goroutine that fills one channel, together with everything it has
    started. [GoPending f]: the channel is made and sent on [in], its
    goroutine not started yet. [GoDeref f]: at [f.Deref]. [GoSend bl]: at
    [ch <- cb]. [GoClose]: at [close(ch)]. [GoReturned]. [GoGetLeaves]: in
    [getLeaves(cb, ch)], with the state of that call: its spawner, the
    channels it has sent on [in] whose [range] the drainer has not
    finished (oldest first; while the drainer is inside
    [for bl := range ch], [ch] is the first of them and the others are
    those in the buffer of [in]), whether [in] is closed, and its
    drainer. *)
Inductive goroutine : Type :=
| GoPending (f : Blob)
| GoDeref (f : Blob)
| GoSend (bl : list byte)
| GoClose
| GoReturned
| GoGetLeaves (sp : spawner) (slots : list (chan * goroutine)) (inClosed : bool)
    (dr : drainer).

(** How many channels the buffer of [in] holds. *)
Definition inLen (dr : drainer) (slots : list (chan * goroutine)) : nat :=
  match dr with
  | DrRangeCh | DrSend _ => (length slots - 1)%nat
  | _ => length slots
  end.

(** One step of the goroutine of a channel, or of a goroutine below it:
    [gstep cap c g c' g'] takes the channel the goroutine writes to and
    the goroutine from [c], [g] to [c'], [g'].
    [cap] is the capacity every channel is made with. *)
Inductive gstep (cap : nat) : chan → goroutine → chan → goroutine → Prop :=
(* cb := f.Deref(b.cs).(Blob); case blobLeaf *)
| gstep_deref_leaf c data :
    gstep cap c (GoDeref (blobLeaf data)) c (GoSend data)
(* case compoundBlob: getLeaves(cb, ch); in := make(...) *)
| gstep_deref_compound c offsets futures :
    gstep cap c (GoDeref (compoundBlob offsets futures))
              c (GoGetLeaves (SpPending futures) [] false DrGo)
(* ch <- cb: blocks while the buffer is full *)
| gstep_send_leaf buf bl :
    (length buf < cap)%nat →
    gstep cap {| cbuf := buf; cclosed := false |} (GoSend bl)
              {| cbuf := buf ++ [bl]; cclosed := false |} GoClose
(* close(ch) *)
| gstep_close_leaf buf :
    gstep cap {| cbuf := buf; cclosed := false |} GoClose
              {| cbuf := buf; cclosed := true |} GoReturned
(* go func() { for _, f := range b.futures ... }() *)
| gstep_go_spawner c fs :
    gstep cap c (GoGetLeaves (SpPending fs) [] false DrGo)
              c (GoGetLeaves (SpRange fs) [] false DrRangeIn)
(* ch := make(...); in <- ch: blocks while the buffer of in is full *)
| gstep_spawner_send c f fs slots dr :
    (inLen dr slots < cap)%nat →
    gstep cap c (GoGetLeaves (SpRange (f :: fs)) slots false dr)
              c (GoGetLeaves (SpGo fs) (slots ++ [(make_chan, GoPending f)]) false dr)
(* go func() { cb := f.Deref ... }() *)
| gstep_spawner_go c f fs slots ch dr :
    gstep cap c (GoGetLeaves (SpGo fs) (slots ++ [(ch, GoPending f)]) false dr)
              c (GoGetLeaves (SpRange fs) (slots ++ [(ch, GoDeref f)]) false dr)
(* the loop over b.futures is over: the deferred close(in) *)
| gstep_spawner_close c slots dr :
    gstep cap c (GoGetLeaves (SpRange []) slots false dr)
              c (GoGetLeaves SpReturned slots true dr)
(* for ch := range in: a channel is received *)
| gstep_range_in c sp s slots ic :
    gstep cap c (GoGetLeaves sp (s :: slots) ic DrRangeIn)
              c (GoGetLeaves sp (s :: slots) ic DrRangeCh)
(* for ch := range in: in is closed and empty, the loop ends *)
| gstep_range_in_closed c sp :
    gstep cap c (GoGetLeaves sp [] true DrRangeIn)
              c (GoGetLeaves sp [] true DrClose)
(* for bl := range ch: a leaf is received *)
| gstep_range_ch c sp bl buf cl g slots ic :
    gstep cap c (GoGetLeaves sp (({| cbuf := bl :: buf; cclosed := cl |}, g) :: slots)
                    ic DrRangeCh)
              c (GoGetLeaves sp (({| cbuf := buf; cclosed := cl |}, g) :: slots)
                    ic (DrSend bl))
(* for bl := range ch: ch is closed and empty, the inner loop ends *)
| gstep_range_ch_closed c sp g slots ic :
    gstep cap c (GoGetLeaves sp (({| cbuf := []; cclosed := true |}, g) :: slots)
                    ic DrRangeCh)
              c (GoGetLeaves sp slots ic DrRangeIn)
(* out <- bl: blocks while the buffer of out is full *)
| gstep_send_out buf sp slots ic bl :
    (length buf < cap)%nat →
    gstep cap {| cbuf := buf; cclosed := false |} (GoGetLeaves sp slots ic (DrSend bl))
              {| cbuf := buf ++ [bl]; cclosed := false |} (GoGetLeaves sp slots ic DrRangeCh)
(* close(out) *)
| gstep_close_out buf sp slots ic :
    gstep cap {| cbuf := buf; cclosed := false |} (GoGetLeaves sp slots ic DrClose)
              {| cbuf := buf; cclosed := true |} (GoGetLeaves sp slots ic DrReturned)
(* a step of the goroutine of one of the channels, or below it *)
| gstep_inner c sp slots1 ch g ch' g' slots2 ic dr :
    gstep cap ch g ch' g' →
    gstep cap c (GoGetLeaves sp (slots1 ++ (ch, g) :: slots2) ic dr)
              c (GoGetLeaves sp (slots1 ++ (ch', g') :: slots2) ic dr).

(** The reader's side: [Seek] makes [cbr.leaves] with capacity 4 and
    starts [getLeaves(cbr.cb, cbr.leaves)]; [Read] receives from it, one
    leaf at a time ([received] is what it has received so far). *)
Record pipeline : Type := {
  out : chan;
  producer : goroutine;
  received : list (list byte)
}.

Definition leavesCap : nat := 4.

Definition startLeaves (futures : list Blob) : pipeline :=
  {| out := make_chan;
     producer := GoGetLeaves (SpPending futures) [] false DrGo;
     received := [] |}.

Inductive step : pipeline → pipeline → Prop :=
| step_producer c g c' g' rcv :
    gstep leavesCap c g c' g' →
    step {| out := c; producer := g; received := rcv |}
         {| out := c'; producer := g'; received := rcv |}
(* for blobLeaf := range cbr.leaves: a leaf is received *)
| step_receive bl buf cl g rcv :
    step {| out := {| cbuf := bl :: buf; cclosed := cl |}; producer := g; received := rcv |}
         {| out := {| cbuf := buf; cclosed := cl |}; producer := g;
            received := rcv ++ [bl] |}.

(** The reader's [range] over [cbr.leaves] ends: the channel is closed
    and its buffer is empty. *)
Definition rangeEnded (s : pipeline) : Prop :=
  cbuf (out s) = [] ∧ cclosed (out s) = true.

(** ** getLeaves: what a state of the goroutines holds *)

(** ** What is still to be delivered *)

Definition pendingSp (sp : spawner) : list (list byte) :=
  match sp with
  | SpPending fs | SpRange fs | SpGo fs => concat (map leavesInOrder fs)
  | SpReturned => []
  end.

Definition pendingDr (dr : drainer) : list (list byte) :=
  match dr with
  | DrSend bl => [bl]
  | _ => []
  end.

(** The leaves a goroutine has yet to put on its channel, in the order
    of the single-threaded walk. *)
Fixpoint pending (g : goroutine) : list (list byte) :=
  match g with
  | GoPending f | GoDeref f => leavesInOrder f
  | GoSend bl => [bl]
  | GoClose | GoReturned => []
  | GoGetLeaves sp slots _ dr =>
      pendingDr dr
      ++ concat (map (λ s, cbuf (fst s) ++ pending (snd s)) slots)
      ++ pendingSp sp
  end.

Definition isPending (g : goroutine) : bool :=
  match g with GoPending _ => true | _ => false end.

Definition noPending (slots : list (chan * goroutine)) : Prop :=
  Forall (λ s, isPending (snd s) = false) slots.

(** The only channel without a goroutine is the last one sent, and only
    while the spawner is between [in <- ch] and [go]. *)
Definition slotsOk (sp : spawner) (slots : list (chan * goroutine)) : Prop :=
  match sp with
  | SpGo _ => ∃ l ch f, slots = l ++ [(ch, GoPending f)] ∧ noPending l
  | _ => noPending slots
  end.

(** How the control states of one [getLeaves] call fit together. *)
Definition wf_ctl (c : chan) (sp : spawner) (slots : list (chan * goroutine))
    (ic : bool) (dr : drainer) : Prop :=
  (cclosed c = true ↔ dr = DrReturned) ∧
  (ic = true ↔ sp = SpReturned) ∧
  ((∃ fs, sp = SpPending fs) ↔ dr = DrGo) ∧
  (dr = DrGo → slots = []) ∧
  (dr = DrClose ∨ dr = DrReturned → slots = [] ∧ ic = true) ∧
  (dr = DrRangeCh ∨ (∃ bl, dr = DrSend bl) → slots ≠ []) ∧
  slotsOk sp slots.

Fixpoint wf (c : chan) (g : goroutine) : Prop :=
  match g with
  | GoPending _ | GoDeref _ | GoSend _ => c = make_chan
  | GoClose => cclosed c = false
  | GoReturned => cclosed c = true
  | GoGetLeaves sp slots ic dr =>
      wf_ctl c sp slots ic dr ∧
      (fix all (l : list (chan * goroutine)) : Prop :=
         match l with
         | [] => True
         | s :: l' => wf (fst s) (snd s) ∧ all l'
         end) slots
  end.

(** ** A measure of the work left *)

Fixpoint blobCost (f : Blob) : nat :=
  match f with
  | blobLeaf _ => 3%nat
  | compoundBlob _ fs =>
      (5 + sum_list (map (λ f', 4 + blobCost f' + 2 * length (leavesInOrder f')) fs))%nat
  end.

Definition futureCost (f : Blob) : nat :=
  (4 + blobCost f + 2 * length (leavesInOrder f))%nat.

Definition costSp (sp : spawner) : nat :=
  match sp with
  | SpPending fs | SpRange fs | SpGo fs => (1 + sum_list (map futureCost fs))%nat
  | SpReturned => 0%nat
  end.

Definition costDr (dr : drainer) : nat :=
  match dr with
  | DrGo => 3%nat
  | DrRangeIn => 2%nat
  | DrRangeCh => 1%nat
  | DrSend _ => 2%nat
  | DrClose => 1%nat
  | DrReturned => 0%nat
  end.

Fixpoint cost (g : goroutine) : nat :=
  match g with
  | GoPending f => (1 + blobCost f)%nat
  | GoDeref f => blobCost f
  | GoSend _ => 2%nat
  | GoClose => 1%nat
  | GoReturned => 0%nat
  | GoGetLeaves sp slots _ dr =>
      (costSp sp
       + sum_list (map (λ s, cost (snd s) + 2
                             + 2 * length (cbuf (fst s) ++ pending (snd s))) slots)
       + costDr dr)%nat
  end.

Definition pipelineCost (s : pipeline) : nat :=
  (cost (producer s) + 2 * length (cbuf (out s) ++ pending (producer s)))%nat.

(** The states of the pipeline that the invariants describe. *)
Definition wfPipeline (s : pipeline) : Prop :=
  wf (out s) (producer s) ∧ isPending (producer s) = false.

(** Received, then buffered in [cbr.leaves], then still to come. *)
Definition allLeaves (s : pipeline) : list (list byte) :=
  received s ++ cbuf (out s) ++ pending (producer s).

(** ** Refs *)

Global Instance byte_eq_dec : EqDecision byte := Byte.byte_eq_dec.
Global Instance byte_countable : Countable byte :=
  inj_countable Byte.to_N Byte.of_N Byte.of_to_N.

(** [ref.Sha1Digest] is [[20]byte]. *)
Definition Sha1Digest : Type := list byte.

(** [ref.Ref]: a struct around the digest; [==] compares the digests. *)
Record Ref : Type := mkRef { Digest : Sha1Digest }.

Global Instance Ref_eq_dec : EqDecision Ref.
Proof. solve_decision. Defined.

(** A [Ref] whose digest has the 20 bytes its Go type gives it. *)
Definition valid_ref (r : Ref) : Prop := length (Digest r) = 20%nat.

(** [ref.Ref{}]: the zero digest. *)
Definition zeroRef : Ref := mkRef (replicate 20 "000"%byte).

Definition byte_of_Z (z : Z) : byte :=
  default "000"%byte (Byte.of_N (Z.to_N (z mod 256))).

Definition Z_of_byte (b : byte) : Z := Z.of_N (Byte.to_N b).

(** Modelled from the spec: package [ref] is not among the sources; the
    spec gives the printable form of a Ref as ["sha1-" + lowercase hex] of
    the 20 digest bytes, and a [parse] that fails on anything else. *)
Definition hexdigit (n : Z) : byte :=
  default "000"%byte (bytes_of "0123456789abcdef" !! Z.to_nat n).

Definition unhexdigit (c : byte) : option Z :=
  let n := Z_of_byte c in
  if (48 <=? n) && (n <=? 57) then Some (n - 48)
  else if (97 <=? n) && (n <=? 102) then Some (n - 87)
  else None.

Definition hex_encode (d : list byte) : list byte :=
  flat_map (λ b, [hexdigit (Z_of_byte b / 16); hexdigit (Z_of_byte b mod 16)]) d.

Fixpoint hex_decode (s : list byte) : option (list byte) :=
  match s with
  | [] => Some []
  | hi :: lo :: s' =>
      match unhexdigit hi, unhexdigit lo, hex_decode s' with
      | Some h, Some l, Some d => Some (byte_of_Z (16 * h + l) :: d)
      | _, _, _ => None
      end
  | _ => None
  end.

Definition sha1_prefix : list byte := bytes_of "sha1-".

Definition Ref_String (r : Ref) : list byte := sha1_prefix ++ hex_encode (Digest r).

Definition Parse (s : list byte) : option Ref :=
  if decide (take 5 s = sha1_prefix) then
    match hex_decode (drop 5 s) with
    | Some d => if decide (length d = 20%nat) then Some (mkRef d) else None
    | None => None
    end
  else None.

(** [ref.MustParse]: panics where [Parse] fails. *)
Definition MustParse (s : list byte) : outcome Ref :=
  match Parse s with
  | Some r => Returns r
  | None => Panics
  end.

(** ** Files *)

(** [encoding/binary] with [binary.LittleEndian] on an [int64]: eight
    bytes, least significant first, two's complement. *)
Fixpoint le_bytes (k : nat) (z : Z) : list byte :=
  match k with
  | O => []
  | S k' => byte_of_Z z :: le_bytes k' (z / 256)
  end.

Fixpoint le_value (bs : list byte) : Z :=
  match bs with
  | [] => 0
  | b :: bs' => Z_of_byte b + 256 * le_value bs'
  end.

Definition int64_of_uint64 (u : Z) : Z :=
  if u <? 2 ^ 63 then u else u - 2 ^ 64.

Definition put_int64 (z : Z) : list byte := le_bytes 8 (z mod 2 ^ 64).
Definition get_int64 (bs : list byte) : Z := int64_of_uint64 (le_value bs).

(** The files of the store directory. *)
Inductive file : Type := RootFile | ChunkFile | RefMapFile | IndexDB.

(** The calls that change a file or make it durable, as the store issues
    them. *)
Inductive syscall : Type :=
| SysTruncate (f : file)
| SysWrite (f : file) (data : list byte)
| SysSync (f : file).

(** An [*os.File] opened with [O_APPEND|O_CREATE|O_RDWR]: the bytes of the
    file and the offset of the handle. Writes go to the end of the file,
    wherever the offset is, and leave the offset at the end. *)
Record osFile : Type := { fdata : list byte; fpos : Z }.

Definition osFile_Seek (f : osFile) (offset : Z) (whence : Z) : outcome (osFile * Z) :=
  let base := if decide (whence = 0) then 0
              else if decide (whence = 1) then fpos f
              else Z.of_nat (length (fdata f)) in
  let pos := base + offset in
  if pos <? 0 then Panics
  else Returns ({| fdata := fdata f; fpos := pos |}, pos).

Definition osFile_Write (f : osFile) (data : list byte) : osFile :=
  {| fdata := fdata f ++ data; fpos := Z.of_nat (length (fdata f ++ data)) |}.

(** [binary.Read(f, binary.LittleEndian, &l)] for an [int64]: reads eight
    bytes at the offset; with fewer than eight left it consumes them and
    fails, leaving [l] alone. *)
Definition osFile_read_int64 (f : osFile) : osFile * option Z :=
  let rest := drop (Z.to_nat (fpos f)) (fdata f) in
  if decide (8 ≤ length rest)%nat then
    ({| fdata := fdata f; fpos := fpos f + 8 |}, Some (get_int64 (take 8 rest)))
  else
    ({| fdata := fdata f; fpos := fpos f + Z.of_nat (length rest) |}, None).

(** [io.LimitReader(f.chunkFile, l)]: reads through the store's handle, at
    most [l] bytes. *)
Record limitReader : Type := { limit : Z }.

(** [binary.Read] of a fixed number [n] of bytes ([io.ReadFull]): the
    bytes at the offset; with fewer than [n] left it consumes them and
    fails. *)
Definition osFile_read (f : osFile) (n : nat) : osFile * option (list byte) :=
  let rest := drop (Z.to_nat (fpos f)) (fdata f) in
  if decide (n ≤ length rest)%nat then
    ({| fdata := fdata f; fpos := fpos f + Z.of_nat n |}, Some (take n rest))
  else
    ({| fdata := fdata f; fpos := fpos f + Z.of_nat (length rest) |}, None).

(** [ioutil.ReadAll] of the reader [Get] returns: the [io.LimitedReader]
    hands out what the handle delivers from its offset on, [limit] bytes
    at most, and nothing once [limit] is used up or not positive. *)
Definition limitReader_ReadAll (f : osFile) (lr : limitReader) : osFile * list byte :=
  let bs := take (Z.to_nat (limit lr)) (drop (Z.to_nat (fpos f)) (fdata f)) in
  ({| fdata := fdata f; fpos := fpos f + Z.of_nat (length bs) |}, bs).

(** [readRef]: [ioutil.ReadAll] of a file opened just before, so all of
    its bytes [s]. *)
Definition readRef (s : list byte) : outcome Ref :=
  if decide (length s = 0%nat) then Returns zeroRef else MustParse s.

(** [fileChunkWriter]: [buffer] is [None] for the nil pointer; [hash] is
    the state of the streaming hash, that is, the bytes written so far
    ([writer] is the [io.MultiWriter] of the two). *)
Record fileChunkWriter : Type := {
  buffer : option (list byte);
  hash : list byte
}.

(** ** FileStore, with the index in the [refMap] log *)

Module FileStoreLog.
Section with_hash.

(** The hash of package [ref] ([ref.NewHash], SHA-1): any function from
    the bytes written to a digest. *)
Variable sha1 : list byte → Sha1Digest.

(** [ref.FromHash]. *)
Definition FromHash (h : list byte) : Ref := mkRef (sha1 h).

(** [rootFile] is the file [f.root] names: [None] when it does not exist.
    [rm] is a Go map and the two files are pointers, so every copy of the
    [FileStore] struct (the receiver of each method, the [fs] of each
    writer) shares this one state. *)
Record FileStore : Type := {
  rootFile : option (list byte);
  chunkFile : osFile;
  refMapFile : osFile;
  rm : gmap Sha1Digest Z;
  trace : list syscall
}.

(** [NewFileStore] on a directory that holds none of the three files. *)
Definition NewFileStore : FileStore :=
  {| rootFile := None;
     chunkFile := {| fdata := []; fpos := 0 |};
     refMapFile := {| fdata := []; fpos := 0 |};
     rm := ∅;
     trace := [] |}.

Definition appendRefMap (f : FileStore) (r : Ref) (i : Z) : FileStore :=
  let rmf := osFile_Write (refMapFile f) (Digest r) in
  let rmf := osFile_Write rmf (put_int64 i) in
  {| rootFile := rootFile f;
     chunkFile := chunkFile f;
     refMapFile := rmf;
     rm := <[Digest r := i]> (rm f);
     trace := trace f ++ [SysWrite RefMapFile (Digest r); SysWrite RefMapFile (put_int64 i)] |}.

Definition Root (f : FileStore) : outcome Ref :=
  match rootFile f with
  | None => Returns zeroRef
  | Some s => readRef s
  end.

Definition UpdateRoot (f : FileStore) (current last : Ref) : outcome (FileStore * bool) :=
  (* os.OpenFile(f.root, os.O_RDWR|os.O_CREATE, os.ModePerm) *)
  let s := default [] (rootFile f) in
  let! existing := readRef s in
  if decide (existing ≠ last) then
    Returns ({| rootFile := Some s; chunkFile := chunkFile f;
                refMapFile := refMapFile f; rm := rm f; trace := trace f |}, false)
  else
    (* file.Seek(0, 0); file.Truncate(0); file.Write([]byte(current.String())) *)
    let t := trace f ++ [SysTruncate RootFile; SysWrite RootFile (Ref_String current)] in
    (* f.chunkFile.Sync(); f.refMapFile.Sync() *)
    let t := t ++ [SysSync ChunkFile; SysSync RefMapFile] in
    Returns ({| rootFile := Some (Ref_String current); chunkFile := chunkFile f;
                refMapFile := refMapFile f; rm := rm f; trace := t |}, true).

Definition Get (f : FileStore) (ref : Ref)
  : outcome (FileStore * option limitReader * option error) :=
  match rm f !! Digest ref with
  | None => Returns (f, None, None)
  | Some i =>
      let! sk := osFile_Seek (chunkFile f) i 0 in
      (* the error of binary.Read is dropped: l stays 0 on a short read *)
      let '(cf, l) := osFile_read_int64 (fst sk) in
      Returns ({| rootFile := rootFile f; chunkFile := cf;
                  refMapFile := refMapFile f; rm := rm f; trace := trace f |},
               Some {| limit := default 0 l |}, None)
  end.

Definition Put (f : FileStore) : fileChunkWriter :=
  {| buffer := Some []; hash := [] |}.

Definition Write (w : fileChunkWriter) (data : list byte)
  : outcome (fileChunkWriter * (Z * option error)) :=
  match buffer w with
  | None => Panics (* Write() cannot be called after Ref() or Close(). *)
  | Some b =>
      Returns ({| buffer := Some (b ++ data); hash := hash w ++ data |},
               (Z.of_nat (length data), None))
  end.

Definition Close (f : FileStore) (w : fileChunkWriter)
  : outcome (FileStore * fileChunkWriter * option error) :=
  match buffer w with
  | None => Returns (f, w, None)
  | Some b =>
      let r := FromHash (hash w) in
      match rm f !! Digest r with
      | Some _ => Returns (f, w, None)
      | None =>
          let! sk := osFile_Seek (chunkFile f) 0 2 in
          let i := snd sk in
          let totalBytes := Z.of_nat (length b) in
          let cf := osFile_Write (fst sk) (put_int64 totalBytes) in
          let cf := osFile_Write cf b in
          let written := Z.of_nat (length b) in
          if decide (totalBytes = written) then
            let f' := {| rootFile := rootFile f; chunkFile := cf;
                         refMapFile := refMapFile f; rm := rm f;
                         trace := trace f ++ [SysWrite ChunkFile (put_int64 totalBytes);
                                              SysWrite ChunkFile b] |} in
            Returns (appendRefMap f' r i, {| buffer := None; hash := hash w |}, None)
          else Panics (* Too few bytes written. *)
      end
  end.

(** [fileChunkWriter.Ref]. *)
Definition WriterRef (f : FileStore) (w : fileChunkWriter)
  : outcome (FileStore * fileChunkWriter * (Ref * option error)) :=
  let! c := Close f w in
  match c with
  | (f', w', None) => Returns (f', w', (FromHash (hash w'), None))
  | (_, _, Some _) => Panics
  end.

(** [readRefMap]: the loop leaves at the first read that fails, and only
    there; each turn consumes 28 bytes, so the fuel given by [readRefMap]
    is enough for any file. *)
Fixpoint readRefMap_loop (fuel : nat) (rmf : osFile) (m : gmap Sha1Digest Z)
  : outcome (osFile * gmap Sha1Digest Z) :=
  match fuel with
  | O => OutOfFuel
  | S fuel' =>
      match osFile_read rmf 20 with
      | (rmf1, None) => Returns (rmf1, m)
      | (rmf1, Some s) =>
          match osFile_read_int64 rmf1 with
          | (rmf2, None) => Returns (rmf2, m)
          | (rmf2, Some i) => readRefMap_loop fuel' rmf2 (<[s := i]> m)
          end
      end
  end.

Definition readRefMap (f : FileStore) : outcome FileStore :=
  let! r := readRefMap_loop (S (length (fdata (refMapFile f)))) (refMapFile f) (rm f) in
  Returns {| rootFile := rootFile f; chunkFile := chunkFile f;
             refMapFile := fst r; rm := snd r; trace := trace f |}.

(** [NewFileStore] on a directory that holds the root file [root] (or
    none), and the files [chunks] and [refMap] (empty when they were not
    there: [O_CREATE]). *)
Definition NewFileStoreOn (root : option (list byte)) (chunks refMap : list byte)
  : outcome FileStore :=
  readRefMap {| rootFile := root;
                chunkFile := {| fdata := chunks; fpos := 0 |};
                refMapFile := {| fdata := refMap; fpos := 0 |};
                rm := ∅;
                trace := [] |}.

(** A caller's [Write]s of the pieces of a chunk, one after the other. *)
Fixpoint writeAll (w : fileChunkWriter) (pieces : list (list byte))
  : outcome fileChunkWriter :=
  match pieces with
  | [] => Returns w
  | p :: pieces' =>
      let! wr := Write w p in
      writeAll (fst wr) pieces'
  end.

(** A caller that writes [b] through a writer of its own and finalizes it
    with [Ref()]. *)
Definition writeChunk (f : FileStore) (b : list byte)
  : outcome (FileStore * fileChunkWriter * Ref) :=
  let w := Put f in
  let! wr := Write w b in
  let! rr := WriterRef f (fst wr) in
  Returns (fst (fst rr), snd (fst rr), fst (snd rr)).

End with_hash.
End FileStoreLog.

(** ** FileStore, with the index in an embedded key-value store *)

Module FileStoreDB.
Section with_hash.

Variable sha1 : list byte → Sha1Digest.

Definition FromHash (h : list byte) : Ref := mkRef (sha1 h).

(** [db] is [f.dbPointer.db]: [None] for the nil pointer. The store is
    github.com/golang/leveldb, an outside library, taken as a map from
    keys to values that [Close] followed by [leveldb.Open] on the same
    directory gives back as it was, and whose [Get] fails with
    [ErrNotFound] on a missing key, or with an error of its own
    ([db_Get] below). *)
Record FileStore : Type := {
  rootFile : option (list byte);
  chunkFile : osFile;
  db : option (gmap (list byte) (list byte));
  trace : list syscall
}.

Definition NewFileStore : FileStore :=
  {| rootFile := None;
     chunkFile := {| fdata := []; fpos := 0 |};
     db := Some ∅;
     trace := [] |}.

Definition Root (f : FileStore) : outcome Ref :=
  match rootFile f with
  | None => Returns zeroRef
  | Some s => readRef s
  end.

Definition UpdateRoot (f : FileStore) (current last : Ref) : outcome (FileStore * bool) :=
  let s := default [] (rootFile f) in
  (* d.Chk.NotNil(f.dbPointer.db) *)
  match db f with
  | None => Panics
  | Some m =>
      (* db.Close(); leveldb.Open(f.dir, ...): the same pairs again *)
      let reopened := Some m in
      let! existing := readRef s in
      if decide (existing ≠ last) then
        Returns ({| rootFile := Some s; chunkFile := chunkFile f;
                    db := reopened; trace := trace f |}, false)
      else
        let t := trace f ++ [SysTruncate RootFile; SysWrite RootFile (Ref_String current)] in
        (* f.chunkFile.Sync() *)
        let t := t ++ [SysSync ChunkFile] in
        Returns ({| rootFile := Some (Ref_String current); chunkFile := chunkFile f;
                    db := reopened; trace := t |}, true)
  end.

(** [db.Get(key, nil)] of the library, the keys of this index being
    digests. [fault] is the error the library
    meets on this call while reading its tables, if any; without one the
    call gives the value, or [ErrNotFound] for a missing key. *)
Definition db_Get (m : gmap (list byte) (list byte)) (fault : option error)
    (key : Sha1Digest) : list byte * option error :=
  match fault with
  | Some e => ([], Some e)
  | None =>
      match m !! key with
      | Some v => (v, None)
      | None => ([], Some db_ErrNotFound)
      end
  end.

(** [getIndex], in a call where the library's [Get] meets [fault]. *)
Definition getIndexWith (fault : option error) (f : FileStore) (ref : Ref)
  : outcome (Z * option error) :=
  match db f with
  | None => Panics
  | Some m =>
      match db_Get m fault (Digest ref) with
      | (_, Some err) => Returns (0, Some err)
      | (v, None) =>
          (* the error of binary.Read is dropped: i stays 0 on a short value *)
          Returns (if decide (8 ≤ length v)%nat then get_int64 (take 8 v) else 0, None)
      end
  end.

(** [getIndex] on a library that works. *)
Definition getIndex (f : FileStore) (ref : Ref) : outcome (Z * option error) :=
  getIndexWith None f ref.

Definition putIndex (f : FileStore) (ref : Ref) (i : Z) : outcome FileStore :=
  match db f with
  | None => Panics
  | Some m =>
      Returns {| rootFile := rootFile f; chunkFile := chunkFile f;
                 db := Some (<[Digest ref := put_int64 i]> m);
                 trace := trace f ++ [SysWrite IndexDB (Digest ref ++ put_int64 i)] |}
  end.

(** [Get], in a call where the library's [Get] meets [fault]. *)
Definition GetWith (fault : option error) (f : FileStore) (ref : Ref)
  : outcome (FileStore * option limitReader * option error) :=
  let! ix := getIndexWith fault f ref in
  match ix with
  | (_, Some _) => Returns (f, None, None)
  | (i, None) =>
      let! sk := osFile_Seek (chunkFile f) i 0 in
      match osFile_read_int64 (fst sk) with
      | (_, None) => Panics
      | (cf, Some l) =>
          Returns ({| rootFile := rootFile f; chunkFile := cf;
                      db := db f; trace := trace f |},
                   Some {| limit := l |}, None)
      end
  end.

(** [Get] on a library that works. *)
Definition Get (f : FileStore) (ref : Ref)
  : outcome (FileStore * option limitReader * option error) :=
  GetWith None f ref.

Definition Put (f : FileStore) : fileChunkWriter :=
  {| buffer := Some []; hash := [] |}.

Definition Write (w : fileChunkWriter) (data : list byte)
  : outcome (fileChunkWriter * (Z * option error)) :=
  match buffer w with
  | None => Panics (* Write() cannot be called after Ref() or Close(). *)
  | Some b =>
      Returns ({| buffer := Some (b ++ data); hash := hash w ++ data |},
               (Z.of_nat (length data), None))
  end.

Definition Close (f : FileStore) (w : fileChunkWriter)
  : outcome (FileStore * fileChunkWriter * option error) :=
  match buffer w with
  | None => Returns (f, w, None)
  | Some b =>
      let r := FromHash (hash w) in
      (* w.fs.getIndex(r), on a library that works *)
      let! ix := getIndex f r in
      match ix with
      | (_, None) => Returns (f, w, None)
      | (_, Some _) =>
          let! sk := osFile_Seek (chunkFile f) 0 2 in
          let i := snd sk in
          let totalBytes := Z.of_nat (length b) in
          let cf := osFile_Write (fst sk) (put_int64 totalBytes) in
          let cf := osFile_Write cf b in
          let written := Z.of_nat (length b) in
          if decide (totalBytes = written) then
            let f' := {| rootFile := rootFile f; chunkFile := cf; db := db f;
                         trace := trace f ++ [SysWrite ChunkFile (put_int64 totalBytes);
                                              SysWrite ChunkFile b] |} in
            let! f'' := putIndex f' r i in
            Returns (f'', {| buffer := None; hash := hash w |}, None)
          else Panics (* Too few bytes written. *)
      end
  end.

Definition WriterRef (f : FileStore) (w : fileChunkWriter)
  : outcome (FileStore * fileChunkWriter * (Ref * option error)) :=
  let! c := Close f w in
  match c with
  | (f', w', None) => Returns (f', w', (FromHash (hash w'), None))
  | (_, _, Some _) => Panics
  end.

Definition writeChunk (f : FileStore) (b : list byte)
  : outcome (FileStore * fileChunkWriter * Ref) :=
  let w := Put f in
  let! wr := Write w b in
  let! rr := WriterRef f (fst wr) in
  Returns (fst (fst rr), snd (fst rr), fst (snd rr)).

End with_hash.
End FileStoreDB.

(** ** The life of a store *)

(** What [Put] and [Write] keep true of a writer: the hash has been fed
    the bytes the buffer holds. *)
Definition writerOk (w : fileChunkWriter) : Prop :=
  ∀ b, buffer w = Some b → hash w = b.

(** One call on the store: a [Close] (or [Ref]) of a writer, an
    [UpdateRoot] (to a Ref of 20 bytes, as its Go type has) or a [Get]
    that returns. *)
Inductive storeStep (sha1 : list byte → Sha1Digest)
  : FileStoreLog.FileStore → FileStoreLog.FileStore → Prop :=
| step_Close f w f' w' e :
    writerOk w →
    FileStoreLog.Close sha1 f w = Returns (f', w', e) →
    storeStep sha1 f f'
| step_UpdateRoot f current last f' b :
    valid_ref current →
    FileStoreLog.UpdateRoot f current last = Returns (f', b) →
    storeStep sha1 f f'
| step_Get f r f' lr e :
    FileStoreLog.Get f r = Returns (f', lr, e) →
    storeStep sha1 f f'.

(** The record of a chunk, [length|bytes], sits at offset [i] of [data]. *)
Definition recordAt (data : list byte) (i : Z) (b : list byte) : Prop :=
  ∃ pre post,
    data = pre ++ put_int64 (Z.of_nat (length b)) ++ b ++ post ∧
    i = Z.of_nat (length pre).

(** Every entry of the index points at the record of bytes with that
    digest. *)
Definition indexOk (sha1 : list byte → Sha1Digest) (f : FileStoreLog.FileStore) : Prop :=
  ∀ d i, FileStoreLog.rm f !! d = Some i →
         ∃ b, sha1 b = d ∧ recordAt (fdata (FileStoreLog.chunkFile f)) i b.

(** An entry of the [refMap] log: the digest, then the offset. *)
Definition refMapEntry (e : Sha1Digest * Z) : list byte := fst e ++ put_int64 (snd e).

(** The [refMap] file is the log of the entries that make up the index. *)
Definition refMapOk (f : FileStoreLog.FileStore) : Prop :=
  ∃ entries : list (Sha1Digest * Z),
    fdata (FileStoreLog.refMapFile f) = concat (map refMapEntry entries) ∧
    FileStoreLog.rm f = foldl (λ m e, <[fst e := snd e]> m) ∅ entries ∧
    Forall (λ e, length (fst e) = 20%nat ∧ 0 ≤ snd e < 2 ^ 63) entries.

(** ** Order of writes and syncs *)

(** Reads a trace of calls and says whether, at every truncation or write
    of the root file, everything written before to the chunks file and to
    the index had been synced. [chunkDirty] and [indexDirty] tell whether
    unsynced writes are pending. *)
Fixpoint synced_before_root (chunkDirty indexDirty : bool) (t : list syscall) : bool :=
  match t with
  | [] => true
  | SysWrite ChunkFile _ :: t' => synced_before_root true indexDirty t'
  | SysWrite RefMapFile _ :: t' => synced_before_root chunkDirty true t'
  | SysWrite IndexDB _ :: t' => synced_before_root chunkDirty true t'
  | SysSync ChunkFile :: t' => synced_before_root false indexDirty t'
  | SysSync RefMapFile :: t' => synced_before_root chunkDirty false t'
  | SysSync IndexDB :: t' => synced_before_root chunkDirty false t'
  | SysTruncate RootFile :: t' =>
      negb (chunkDirty || indexDirty) && synced_before_root chunkDirty indexDirty t'
  | SysWrite RootFile _ :: t' =>
      negb (chunkDirty || indexDirty) && synced_before_root chunkDirty indexDirty t'
  | _ :: t' => synced_before_root chunkDirty indexDirty t'
  end.

(** ** Values for the examples *)

(** A stand-in for SHA-1 where an example needs digests to compute: the
    first 20 bytes of the data, padded with zeros. *)
Definition pad20 (data : list byte) : Sha1Digest :=
  take 20 (data ++ replicate 20 "000"%byte).

(** The store after the chunk "x" has been written to an empty one. *)
Definition storeX : FileStoreLog.FileStore :=
  match FileStoreLog.writeChunk pad20 FileStoreLog.NewFileStore (bytes_of "x") with
  | Returns (f, _, _) => f
  | _ => FileStoreLog.NewFileStore
  end.


Definition refA : Ref := mkRef (pad20 (bytes_of "A")).
Definition refB : Ref := mkRef (pad20 (bytes_of "B")).

(** * Theorems *)

Section search.

Lemma strictly_increasing_lookup (O : list Z) (i j : nat) (a b : Z) :
  strictly_increasing O = true →
  O !! i = Some a → O !! j = Some b → (i < j)%nat → a < b.
Proof.
  revert i j a b. induction O as [|o O' IH]; intros i j a b Hs Hi Hj Hij.
  - discriminate.
  - destruct j as [|j]; [lia|].
    assert (Hs' : strictly_increasing O' = true).
    { simpl in Hs. destruct O'; [done|]. by apply andb_prop in Hs as [_ ?]. }
    assert (Hhd : ∀ k c, O' !! k = Some c → o < c).
    { intros k. induction k as [|k IHk]; intros c Hk.
      - simpl in Hs. destruct O' as [|o' O'']; [done|].
        apply andb_prop in Hs as [Hlt _]. simpl in Hk. simplify_eq. lia.
      - destruct (O' !! k) as [c'|] eqn:Hk'.
        + specialize (IHk c' eq_refl).
          assert (c' < c) by (apply (IH k (S k) c' c); auto; lia). lia.
        + apply lookup_ge_None in Hk'. apply lookup_lt_Some in Hk. lia. }
    destruct i as [|i].
    + simpl in Hi, Hj. simplify_eq. eauto.
    + simpl in Hi, Hj. apply (IH i j); auto. lia.
Qed.

Lemma index_lookup {A} (s : list A) (i : nat) (a : A) :
  s !! i = Some a → index s (Z.of_nat i) = Returns a.
Proof.
  intros H. unfold index. pose proof (lookup_lt_Some _ _ _ H).
  rewrite Nat2Z.id, H.
  destruct (0 <=? Z.of_nat i) eqn:E1; [|lia].
  destruct (Z.of_nat i <? Z.of_nat (length s)) eqn:E2; [done|lia].
Qed.

Lemma shiftr_mid (i j : Z) :
  0 ≤ i → i < j → j < 2 ^ 63 →
  Z.shiftr (uint_of_int (i + j)) 1 = (i + j) / 2.
Proof.
  intros. unfold uint_of_int. rewrite Z.mod_small by lia.
  by rewrite Z.shiftr_div_pow2.
Qed.

(** The loop invariant of [sort.Search] on a monotone predicate given by
    a threshold [t]: [f h] is true exactly from [t] on. *)
Lemma Search_loop_threshold (f : Z → outcome bool) (n t : Z) :
  n < 2 ^ 63 →
  (∀ h, 0 ≤ h < n → f h = Returns (t <=? h)) →
  ∀ fuel i j, 0 ≤ i → i ≤ t → t ≤ j → j ≤ n →
    (Z.to_nat (j - i) ≤ fuel)%nat →
    Search_loop fuel f i j = Returns t.
Proof.
  intros Hn Hf fuel. induction fuel as [|fuel IH]; intros i j Hi Hit Htj Hjn Hfuel.
  - simpl. destruct (i <? j) eqn:E; [lia|]. f_equal. lia.
  - simpl. destruct (i <? j) eqn:E; [|f_equal; lia].
    rewrite shiftr_mid by lia.
    assert (Hh : i ≤ (i + j) / 2 < j).
    { split; [apply Z.div_le_lower_bound | apply Z.div_lt_upper_bound]; lia. }
    rewrite Hf by lia. simpl.
    destruct (t <=? (i + j) / 2) eqn:Et; simpl.
    + apply IH; lia.
    + apply IH; lia.
Qed.

(** The number of leading offsets that are [<= p]. *)
Fixpoint leading_le (O : list Z) (p : Z) : nat :=
  match O with
  | [] => 0%nat
  | o :: O' => if o >? p then 0%nat else S (leading_le O' p)
  end.

Lemma leading_le_spec (O : list Z) (p : Z) :
  (leading_le O p ≤ length O)%nat ∧
  (∀ j o, (j < leading_le O p)%nat → O !! j = Some o → o ≤ p) ∧
  (∀ o, O !! leading_le O p = Some o → p < o).
Proof.
  induction O as [|o O' (IH1 & IH2 & IH3)]; simpl.
  - split; [lia|]. split; [intros; lia | intros ? [=]].
  - rewrite Z.gtb_ltb. destruct (p <? o) eqn:E; simpl.
    + split; [lia|]. split; [intros; lia|]. intros ? [= <-]. lia.
    + split; [lia|]. split; [|done].
      intros [|j] o' Hj Hl; simpl in Hl; [simplify_eq; lia|].
      apply (IH2 j); [lia|done].
Qed.

Lemma gt_threshold (O : list Z) (p : Z) (h : nat) (o : Z) :
  strictly_increasing O = true → O !! h = Some o →
  (o >? p) = (Z.of_nat (leading_le O p) <=? Z.of_nat h).
Proof.
  intros Hs Hh. destruct (leading_le_spec O p) as (Hlen & Hlow & Hat).
  rewrite Z.gtb_ltb.
  destruct (Z.of_nat (leading_le O p) <=? Z.of_nat h) eqn:E.
  - apply Z.leb_le in E. apply Z.ltb_lt.
    destruct (O !! leading_le O p) as [ot|] eqn:Ht.
    + specialize (Hat ot eq_refl).
      destruct (decide (leading_le O p = h)) as [Heq|Hne].
      * rewrite Heq in Ht. simplify_eq. lia.
      * assert (ot < o) by (eapply strictly_increasing_lookup; eauto; lia). lia.
    + apply lookup_ge_None in Ht. apply lookup_lt_Some in Hh. lia.
  - apply Z.leb_gt in E. apply Z.ltb_ge. apply (Hlow h o); [lia|done].
Qed.

End search.

(** C9. On strictly increasing offsets [O] and a position [p] with
    [0 <= p < O[k-1]], [findBlobOffset p] returns the smallest index [i]
    with [O[i] > p]: the index of the child whose byte range
    [[O[i-1], O[i])] (with [O[-1] = 0]) contains [p]. *)
Theorem findBlobOffset_smallest_above (O : list Z) (p last : Z) :
  strictly_increasing O = true →
  Z.of_nat (length O) < 2 ^ 63 →
  O !! (length O - 1)%nat = Some last →
  0 ≤ p < last →
  ∃ (i : nat) (o : Z),
    findBlobOffset O p = Returns (Z.of_nat i) ∧
    O !! i = Some o ∧ p < o ∧
    (∀ j o', O !! j = Some o' → p < o' → (i ≤ j)%nat) ∧
    range_start O i ≤ p < o.
Proof.
  intros Hs Hlen Hlast Hp.
  destruct (leading_le_spec O p) as (Hle & Hlow & Hat).
  assert (Hlt : (leading_le O p < length O)%nat).
  { destruct (decide (leading_le O p < length O)%nat) as [|Hge]; [done|].
    pose proof (lookup_lt_Some _ _ _ Hlast).
    assert (last ≤ p) by (apply (Hlow (length O - 1)%nat last); [lia|done]).
    lia. }
  destruct (lookup_lt_is_Some_2 O _ Hlt) as [o Ho].
  exists (leading_le O p), o. specialize (Hat o Ho).
  split; [|split; [done|split; [done|split]]].
  - unfold findBlobOffset, Search.
    apply Search_loop_threshold with (n := Z.of_nat (length O)); try lia.
    intros h Hh. replace h with (Z.of_nat (Z.to_nat h)) by lia.
    destruct (lookup_lt_is_Some_2 O (Z.to_nat h)) as [oh Hoh]; [lia|].
    rewrite (index_lookup O (Z.to_nat h) oh Hoh). simpl.
    by rewrite (gt_threshold O p (Z.to_nat h) oh).
  - intros j o' Hj Hpo.
    destruct (decide (leading_le O p ≤ j)%nat) as [|Hn]; [done|].
    assert (o' ≤ p) by (apply (Hlow j o'); [lia|done]). lia.
  - split; [|done]. unfold range_start.
    destruct (leading_le O p) as [|i'] eqn:Ei; [lia|].
    destruct (O !! i') as [o'|] eqn:Ho'; simpl; [|lia].
    apply (Hlow i' o'); [lia|done].
Qed.

(** The offsets [[2; 5; 6]] of the leaves "ab", "cde", "f": position 3 is
    in child 1. *)
Lemma findBlobOffset_smallest_above_witness :
  ∃ (i : nat) (o : Z),
    findBlobOffset [2; 5; 6] 3 = Returns (Z.of_nat i) ∧
    [2; 5; 6] !! i = Some o ∧ 3 < o ∧
    (∀ j o', [2; 5; 6] !! j = Some o' → 3 < o' → (i ≤ j)%nat) ∧
    range_start [2; 5; 6] i ≤ 3 < o.
Proof.
  apply (findBlobOffset_smallest_above [2; 5; 6] 3 6);
    [reflexivity | simpl; lia | reflexivity | lia].
Defined.

(** ** The reader *)

(** The scenario of the spec with two levels: the reads deliver "abcdef"
    (one leaf at most per call), then a read of no byte and no error,
    then EOF. *)
Example read_two_level :
  let '(bs, ress, _) :=
    readWith
      (Reader [4; 6]
         [compoundBlob [2; 4] [blobLeaf (bytes_of "ab"); blobLeaf (bytes_of "cd")];
          compoundBlob [2] [blobLeaf (bytes_of "ef")]])
      [3; 3; 3; 3; 3]%nat in
  (bs, ress)
  = (bytes_of "abcdef",
     [(2, None); (2, None); (2, None); (0, None); (0, Some io_EOF)]).
Proof. vm_compute. reflexivity. Qed.

(** C1, on the code. One leaf "abcdef" read with buffers of two bytes:
    the first [Read] takes "ab" from the new leaf, the second takes "cd"
    from [curLeaf] and, the read having succeeded, sets [curLeaf] to nil;
    the third finds no leaf left, so "ef" is never delivered. *)
Theorem Read_drops_rest_of_leaf :
  let '(bs, ress, _) :=
    readWith (Reader [6] [blobLeaf (bytes_of "abcdef")]) [2; 2; 2; 2]%nat in
  bs = bytes_of "abcd" ∧
  ress = [(2, None); (2, None); (0, None); (0, Some io_EOF)] ∧
  bs ≠ blobBytes (compoundBlob [6] [blobLeaf (bytes_of "abcdef")]).
Proof. vm_compute. repeat split. discriminate. Qed.

(** C4, on the code. Leaves "ab", "cde", "f". [Seek(3, 0)] returns
    position 0 and the [Read] of two bytes after it delivers "ab", not
    "de"; [Seek(-1, 0)] does not fail; after [Seek(100, 0)], past the end,
    [Read] delivers "ab" and no EOF. *)
Theorem Seek_restarts_from_zero :
  let cbr := Reader [2; 5; 6]
               [blobLeaf (bytes_of "ab"); blobLeaf (bytes_of "cde"); blobLeaf (bytes_of "f")] in
  let p := replicate 2 "000"%byte in
  Seek cbr 3 0 = (fst (Seek cbr 0 0), (0, None)) ∧
  (let '(_, p', res) := Read (fst (Seek cbr 3 0)) p in
   res = (2, None) ∧ p' = bytes_of "ab" ∧ p' ≠ bytes_of "de") ∧
  snd (Seek cbr (-1) 0) = (0, None) ∧
  (let '(_, p', res) := Read (fst (Seek cbr 100 0)) p in
   res = (2, None) ∧ p' = bytes_of "ab").
Proof. vm_compute. repeat split. discriminate. Qed.

(** ** EOF is sticky *)

Lemma bytesReader_Read_err (r r' : bytesReader) (b b' : list byte) (n : Z)
    (e : option error) :
  bytesReader_Read r b = (r', b', n, e) → e = None ∨ e = Some io_EOF.
Proof.
  unfold bytesReader_Read. destruct (ri r >=? _).
  - intros [= <- <- <- <-]. by right.
  - destruct (copy _ _). intros [= <- <- <- <-]. by left.
Qed.

Lemma read_err (r r' : bytesReader) (fr fr' : readFrame) (exit : bool) :
  read r fr = (r', fr', exit) → ferr fr ≠ Some io_EOF → ferr fr' ≠ Some io_EOF.
Proof.
  unfold read.
  destruct (bytesReader_Read r _) as [[[r1 tail] l] e] eqn:E.
  destruct (bytesReader_Read_err _ _ _ _ _ _ E) as [->| ->];
    intros [= <- <- <-]; simpl; done.
Qed.

Lemma rangeLeaves_err (ls ls' : list (list byte)) (cur cur' : option bytesReader)
    (fr fr' : readFrame) (returned : bool) :
  rangeLeaves ls cur fr = (ls', cur', fr', returned) →
  ferr fr ≠ Some io_EOF → ferr fr' ≠ Some io_EOF.
Proof.
  revert cur fr. induction ls as [|bl ls IH]; intros cur fr; simpl.
  - by intros [= <- <- <- <-].
  - destruct (read (blobLeaf_Reader bl) fr) as [[r1 fr1] exit] eqn:E.
    pose proof (read_err _ _ _ _ _ E) as Hfr1.
    destruct exit.
    + intros [= <- <- <- <-]. done.
    + intros Hr Hne. eapply IH; eauto.
Qed.

(** [Read] returns [io.EOF] from its first branch only: with [eof] set. *)
Lemma Read_EOF_only_when_eof (cbr cbr' : compoundBlobReader) (p p' : list byte) (n : Z) :
  Read cbr p = (cbr', p', (n, Some io_EOF)) → eof cbr = true.
Proof.
  unfold Read. destruct (eof cbr) eqn:Heof; [done|].
  set (cbr1 := match leaves cbr with None => _ | Some _ => _ end).
  set (fr0 := {| fp := p; fn := 0; ferr := None |}).
  assert (H0 : ferr fr0 ≠ Some io_EOF) by done.
  destruct (curLeaf cbr1) as [r|].
  - destruct (read r fr0) as [[r1 fr1] exit] eqn:E.
    pose proof (read_err _ _ _ _ _ E H0) as H1.
    destruct exit.
    + intros [= _ _ _ He]. done.
    + destruct (rangeLeaves _ _ _) as [[[ls' cur'] fr'] ret] eqn:E2.
      pose proof (rangeLeaves_err _ _ _ _ _ _ _ E2 H1) as H2.
      destruct ret; intros [= _ _ _ He]; done.
  - destruct (rangeLeaves _ _ _) as [[[ls' cur'] fr'] ret] eqn:E2.
    pose proof (rangeLeaves_err _ _ _ _ _ _ _ E2 H0) as H2.
    destruct ret; intros [= _ _ _ He]; done.
Qed.

Lemma Read_when_eof (cbr : compoundBlobReader) (p : list byte) :
  eof cbr = true → Read cbr p = (cbr, p, (0, Some io_EOF)).
Proof. intros H. unfold Read. by rewrite H. Qed.

Lemma calls_keep_eof (cbr : compoundBlobReader) (cs : list readerCall) :
  eof cbr = true → eof (calls cbr cs) = true.
Proof.
  revert cbr. induction cs as [|c cs IH]; intros cbr H; [done|].
  unfold calls in *. simpl. apply IH. destruct c; simpl.
  - by rewrite (Read_when_eof cbr p H).
  - done.
Qed.

(** C10. Once a [Read] has returned EOF, [eof] is set, and after any
    calls of [Read] and [Seek] that follow it is still set and [Read]
    returns [(0, EOF)]. *)
Theorem EOF_is_sticky (cbr cbr' : compoundBlobReader) (p p' : list byte) (n : Z) :
  Read cbr p = (cbr', p', (n, Some io_EOF)) →
  eof cbr' = true ∧
  ∀ (cs : list readerCall) (q : list byte),
    eof (calls cbr' cs) = true ∧
    Read (calls cbr' cs) q = (calls cbr' cs, q, (0, Some io_EOF)).
Proof.
  intros HR. pose proof (Read_EOF_only_when_eof _ _ _ _ _ HR) as Heof.
  rewrite (Read_when_eof cbr p Heof) in HR. injection HR as <- <- <-.
  split; [done|]. intros cs q.
  pose proof (calls_keep_eof cbr cs Heof) as H. split; [done|].
  by apply Read_when_eof.
Qed.

(** The reader of the leaf "a" after two reads of one byte (the byte,
    then the end of the channel): its third [Read] returns EOF, and so
    does a [Read] after [Seek(0, 0)]. *)
Lemma EOF_is_sticky_witness :
  let cbr := snd (readWith (Reader [1] [blobLeaf (bytes_of "a")]) [1; 1]%nat) in
  eof cbr = true ∧
  ∀ (cs : list readerCall) (q : list byte),
    eof (calls cbr cs) = true ∧
    Read (calls cbr cs) q = (calls cbr cs, q, (0, Some io_EOF)).
Proof.
  apply (EOF_is_sticky
           (snd (readWith (Reader [1] [blobLeaf (bytes_of "a")]) [1; 1]%nat))
           _ (replicate 1 "000"%byte) (replicate 1 "000"%byte) 0).
  reflexivity.
Defined.

(** ** Refs and their printed form *)

Lemma hex_decode_byte (b : byte) (s : list byte) :
  hex_decode (hexdigit (Z_of_byte b / 16) :: hexdigit (Z_of_byte b mod 16) :: s)
  = match hex_decode s with Some d => Some (b :: d) | None => None end.
Proof. destruct b; reflexivity. Qed.

Lemma hex_decode_encode (d : list byte) : hex_decode (hex_encode d) = Some d.
Proof.
  induction d as [|b d IH]; [done|].
  unfold hex_encode in *. cbn [flat_map app].
  by rewrite hex_decode_byte, IH.
Qed.

Lemma Parse_String (r : Ref) : valid_ref r → Parse (Ref_String r) = Some r.
Proof.
  intros Hv. unfold Parse, Ref_String.
  change (take 5 (sha1_prefix ++ hex_encode (Digest r))) with sha1_prefix.
  change (drop 5 (sha1_prefix ++ hex_encode (Digest r))) with (hex_encode (Digest r)).
  rewrite decide_True by done. rewrite hex_decode_encode.
  rewrite decide_True by done. by destruct r.
Qed.

Lemma readRef_String (r : Ref) : valid_ref r → readRef (Ref_String r) = Returns r.
Proof.
  intros Hv. unfold readRef, MustParse. rewrite (Parse_String r Hv).
  rewrite decide_False; [done|]. unfold Ref_String. rewrite length_app. simpl. lia.
Qed.

(** What [UpdateRoot] leaves in the root file: nothing, or the printed
    form of a Ref. *)
Definition root_ok (s : option (list byte)) : Prop :=
  s = None ∨ s = Some [] ∨ ∃ r, valid_ref r ∧ s = Some (Ref_String r).

Lemma readRef_root_ok (s : option (list byte)) :
  root_ok s → ∃ r, readRef (default [] s) = Returns r.
Proof.
  intros [->|[->|(r & Hv & ->)]]; simpl; eauto using readRef_String.
Qed.

(** ** The root *)

Lemma Root_readRef_log (f : FileStoreLog.FileStore) :
  FileStoreLog.Root f = readRef (default [] (FileStoreLog.rootFile f)).
Proof. unfold FileStoreLog.Root. by destruct (FileStoreLog.rootFile f). Qed.

Lemma Root_readRef_db (f : FileStoreDB.FileStore) :
  FileStoreDB.Root f = readRef (default [] (FileStoreDB.rootFile f)).
Proof. unfold FileStoreDB.Root. by destruct (FileStoreDB.rootFile f). Qed.

Lemma UpdateRoot_log (f : FileStoreLog.FileStore) (new expected prior : Ref) :
  valid_ref new →
  FileStoreLog.Root f = Returns prior →
  ∃ f' b,
    FileStoreLog.UpdateRoot f new expected = Returns (f', b) ∧
    (b = true ↔ prior = expected) ∧
    (b = true → FileStoreLog.Root f' = Returns new) ∧
    (b = false → FileStoreLog.Root f' = Returns prior ∧
                 FileStoreLog.rootFile f' = Some (default [] (FileStoreLog.rootFile f))) ∧
    FileStoreLog.rm f' = FileStoreLog.rm f ∧
    FileStoreLog.chunkFile f' = FileStoreLog.chunkFile f.
Proof.
  intros Hv Hroot. rewrite Root_readRef_log in Hroot.
  unfold FileStoreLog.UpdateRoot. rewrite Hroot. simpl.
  destruct (decide (prior ≠ expected)) as [Hne|Heq].
  - eexists _, false. split; [done|]. split; [split; [done|intros; done]|].
    split; [done|]. split; [|done]. intros _.
    by rewrite Root_readRef_log.
  - apply dec_stable in Heq. eexists _, true. split; [done|].
    split; [done|]. split; [|done]. intros _.
    rewrite Root_readRef_log. simpl. by apply readRef_String.
Qed.

Lemma UpdateRoot_db (f : FileStoreDB.FileStore) (new expected prior : Ref) :
  valid_ref new →
  is_Some (FileStoreDB.db f) →
  FileStoreDB.Root f = Returns prior →
  ∃ f' b,
    FileStoreDB.UpdateRoot f new expected = Returns (f', b) ∧
    (b = true ↔ prior = expected) ∧
    (b = true → FileStoreDB.Root f' = Returns new) ∧
    (b = false → FileStoreDB.Root f' = Returns prior ∧
                 FileStoreDB.rootFile f' = Some (default [] (FileStoreDB.rootFile f))) ∧
    FileStoreDB.db f' = FileStoreDB.db f ∧
    FileStoreDB.chunkFile f' = FileStoreDB.chunkFile f.
Proof.
  intros Hv [m Hm] Hroot. rewrite Root_readRef_db in Hroot.
  unfold FileStoreDB.UpdateRoot. rewrite Hm, Hroot. simpl.
  destruct (decide (prior ≠ expected)) as [Hne|Heq].
  - eexists _, false. split; [done|]. split; [split; [done|intros; done]|].
    split; [done|]. split; [|done]. intros _.
    by rewrite Root_readRef_db.
  - apply dec_stable in Heq. eexists _, true. split; [done|].
    split; [done|]. split; [|done]. intros _.
    rewrite Root_readRef_db. simpl. by apply readRef_String.
Qed.

(** The root file stays well formed: [UpdateRoot] is its only writer. *)
Lemma UpdateRoot_root_ok_log (f f' : FileStoreLog.FileStore) (new expected : Ref) (b : bool) :
  valid_ref new → root_ok (FileStoreLog.rootFile f) →
  FileStoreLog.UpdateRoot f new expected = Returns (f', b) →
  root_ok (FileStoreLog.rootFile f').
Proof.
  intros Hv Hok. unfold FileStoreLog.UpdateRoot.
  destruct (readRef _) as [existing| |]; simpl; [|done..].
  destruct (decide (existing ≠ expected)); intros [= <- <-]; simpl.
  - destruct Hok as [->|[->|(r & Hr & ->)]]; simpl;
      [right; by left | right; by left | right; right; eauto].
  - right; right; eauto.
Qed.

(** C2. [UpdateRoot(new, expected)] returns true exactly when the value
    of the root file equals [expected]; after true, [Root()] returns
    [new]; after false, the root file holds what it held and [Root()]
    returns the prior value. Both variants of the store. *)
Theorem UpdateRoot_compare_and_swap
    (fl : FileStoreLog.FileStore) (fd : FileStoreDB.FileStore) (new expected : Ref) :
  valid_ref new →
  root_ok (FileStoreLog.rootFile fl) →
  root_ok (FileStoreDB.rootFile fd) →
  is_Some (FileStoreDB.db fd) →
  (∃ prior fl' b,
     FileStoreLog.Root fl = Returns prior ∧
     FileStoreLog.UpdateRoot fl new expected = Returns (fl', b) ∧
     (b = true ↔ prior = expected) ∧
     (b = true → FileStoreLog.Root fl' = Returns new) ∧
     (b = false → FileStoreLog.Root fl' = Returns prior ∧
        FileStoreLog.rootFile fl' = Some (default [] (FileStoreLog.rootFile fl)))) ∧
  (∃ prior fd' b,
     FileStoreDB.Root fd = Returns prior ∧
     FileStoreDB.UpdateRoot fd new expected = Returns (fd', b) ∧
     (b = true ↔ prior = expected) ∧
     (b = true → FileStoreDB.Root fd' = Returns new) ∧
     (b = false → FileStoreDB.Root fd' = Returns prior ∧
        FileStoreDB.rootFile fd' = Some (default [] (FileStoreDB.rootFile fd)))).
Proof.
  intros Hv Hl Hd Hdb. split.
  - destruct (readRef_root_ok _ Hl) as [prior Hp].
    rewrite <- Root_readRef_log in Hp.
    destruct (UpdateRoot_log fl new expected prior Hv Hp) as (f' & b & ? & ? & ? & ? & _).
    by exists prior, f', b.
  - destruct (readRef_root_ok _ Hd) as [prior Hp].
    rewrite <- Root_readRef_db in Hp.
    destruct (UpdateRoot_db fd new expected prior Hv Hdb Hp) as (f' & b & ? & ? & ? & ? & _).
    by exists prior, f', b.
Qed.

Lemma UpdateRoot_compare_and_swap_witness :
  (∃ prior fl' b,
     FileStoreLog.Root FileStoreLog.NewFileStore = Returns prior ∧
     FileStoreLog.UpdateRoot FileStoreLog.NewFileStore refA zeroRef = Returns (fl', b) ∧
     (b = true ↔ prior = zeroRef) ∧
     (b = true → FileStoreLog.Root fl' = Returns refA) ∧
     (b = false → FileStoreLog.Root fl' = Returns prior ∧
        FileStoreLog.rootFile fl'
        = Some (default [] (FileStoreLog.rootFile FileStoreLog.NewFileStore)))) ∧
  (∃ prior fd' b,
     FileStoreDB.Root FileStoreDB.NewFileStore = Returns prior ∧
     FileStoreDB.UpdateRoot FileStoreDB.NewFileStore refA zeroRef = Returns (fd', b) ∧
     (b = true ↔ prior = zeroRef) ∧
     (b = true → FileStoreDB.Root fd' = Returns refA) ∧
     (b = false → FileStoreDB.Root fd' = Returns prior ∧
        FileStoreDB.rootFile fd'
        = Some (default [] (FileStoreDB.rootFile FileStoreDB.NewFileStore)))).
Proof.
  apply (UpdateRoot_compare_and_swap
           FileStoreLog.NewFileStore FileStoreDB.NewFileStore refA zeroRef).
  - reflexivity.
  - left. reflexivity.
  - left. reflexivity.
  - exists ∅. reflexivity.
Defined.

(** The scenario of the spec: from an empty store, [updateRoot(A, zero)]
    succeeds, [updateRoot(B, zero)] then fails and the root is still A,
    and [updateRoot(B, A)] succeeds. *)
Example root_scenario :
  let f0 := FileStoreLog.NewFileStore in
  FileStoreLog.Root f0 = Returns zeroRef ∧
  ∃ f1 f2 f3,
    FileStoreLog.UpdateRoot f0 refA zeroRef = Returns (f1, true) ∧
    FileStoreLog.Root f1 = Returns refA ∧
    FileStoreLog.UpdateRoot f1 refB zeroRef = Returns (f2, false) ∧
    FileStoreLog.Root f2 = Returns refA ∧
    FileStoreLog.UpdateRoot f2 refB refA = Returns (f3, true) ∧
    FileStoreLog.Root f3 = Returns refB.
Proof.
  split; [reflexivity|]. eexists _, _, _.
  repeat (split; [reflexivity|]). reflexivity.
Qed.

(** ** Get *)




(** ** Writing chunks *)

Lemma osFile_Seek_end (f : osFile) :
  osFile_Seek f 0 2
  = Returns ({| fdata := fdata f; fpos := Z.of_nat (length (fdata f)) |},
             Z.of_nat (length (fdata f))).
Proof.
  unfold osFile_Seek. rewrite decide_False by done. rewrite decide_False by done.
  rewrite Z.add_0_r. destruct (Z.ltb_spec (Z.of_nat (length (fdata f))) 0); [lia|done].
Qed.

Section writing.

Variable sha1 : list byte → Sha1Digest.

(** The record of a chunk in the chunks file: the length, then the bytes. *)
Definition chunk_record (b : list byte) : list byte :=
  put_int64 (Z.of_nat (length b)) ++ b.

Lemma writeChunk_log (f : FileStoreLog.FileStore) (b : list byte) :
  ∃ f1 w1,
    FileStoreLog.writeChunk sha1 f b = Returns (f1, w1, FileStoreLog.FromHash sha1 b) ∧
    (is_Some (FileStoreLog.rm f !! sha1 b) → f1 = f) ∧
    (FileStoreLog.rm f !! sha1 b = None →
       fdata (FileStoreLog.chunkFile f1)
       = fdata (FileStoreLog.chunkFile f) ++ chunk_record b ∧
       FileStoreLog.rm f1
       = <[sha1 b := Z.of_nat (length (fdata (FileStoreLog.chunkFile f)))]>
           (FileStoreLog.rm f)).
Proof.
  unfold FileStoreLog.writeChunk, FileStoreLog.WriterRef, FileStoreLog.Close. simpl.
  destruct (FileStoreLog.rm f !! sha1 b) as [i|] eqn:Hi; simpl.
  - eexists _, _. split; [done|]. split; [done|]. intros [=].
  - rewrite osFile_Seek_end. simpl. rewrite decide_True by done. simpl.
    eexists _, _. split; [done|]. split; [by intros [? [=]]|]. intros _.
    split; [|done]. unfold chunk_record, osFile_Write. simpl. by rewrite <- app_assoc.
Qed.

Lemma writeChunk_db (f : FileStoreDB.FileStore) (m : gmap (list byte) (list byte))
    (b : list byte) :
  FileStoreDB.db f = Some m →
  ∃ f1 w1,
    FileStoreDB.writeChunk sha1 f b = Returns (f1, w1, FileStoreDB.FromHash sha1 b) ∧
    (is_Some (m !! sha1 b) → f1 = f) ∧
    (m !! sha1 b = None →
       fdata (FileStoreDB.chunkFile f1)
       = fdata (FileStoreDB.chunkFile f) ++ chunk_record b ∧
       FileStoreDB.db f1
       = Some (<[sha1 b := put_int64 (Z.of_nat (length (fdata (FileStoreDB.chunkFile f))))]> m)).
Proof.
  intros Hm.
  unfold FileStoreDB.writeChunk, FileStoreDB.WriterRef, FileStoreDB.Close,
    FileStoreDB.getIndex, FileStoreDB.getIndexWith, FileStoreDB.db_Get. simpl. rewrite Hm.
  destruct (m !! sha1 b) as [v|] eqn:Hv; simpl.
  - eexists _, _. split; [done|]. split; [done|]. intros [=].
  - rewrite osFile_Seek_end. simpl. rewrite decide_True by done.
    unfold FileStoreDB.putIndex. simpl.
    eexists _, _. split; [done|]. split; [by intros [? [=]]|]. intros _.
    split; [|done]. unfold chunk_record, osFile_Write. simpl. by rewrite <- app_assoc.
Qed.

End writing.

(** C3. Writing the same bytes [b] through two writers of one store: both
    finalizations return the Ref of [b]; the second changes nothing in the
    store; the first appends one record [length|bytes] and one index entry
    when the hash of [b] was not indexed, and nothing when it was; so the
    index grows by at most one entry. Both variants. *)
Theorem write_twice_one_record
    (sha1 : list byte → Sha1Digest)
    (fl : FileStoreLog.FileStore) (fd : FileStoreDB.FileStore)
    (m : gmap (list byte) (list byte)) (b : list byte) :
  FileStoreDB.db fd = Some m →
  (∃ fl1 w1 w2,
     FileStoreLog.writeChunk sha1 fl b = Returns (fl1, w1, mkRef (sha1 b)) ∧
     FileStoreLog.writeChunk sha1 fl1 b = Returns (fl1, w2, mkRef (sha1 b)) ∧
     (FileStoreLog.rm fl !! sha1 b = None →
        fdata (FileStoreLog.chunkFile fl1)
        = fdata (FileStoreLog.chunkFile fl) ++ chunk_record b ∧
        FileStoreLog.rm fl1 !! sha1 b
        = Some (Z.of_nat (length (fdata (FileStoreLog.chunkFile fl)))) ∧
        size (FileStoreLog.rm fl1) = S (size (FileStoreLog.rm fl))) ∧
     (is_Some (FileStoreLog.rm fl !! sha1 b) → fl1 = fl) ∧
     (size (FileStoreLog.rm fl1) ≤ S (size (FileStoreLog.rm fl)))%nat) ∧
  (∃ fd1 m1 w1 w2,
     FileStoreDB.writeChunk sha1 fd b = Returns (fd1, w1, mkRef (sha1 b)) ∧
     FileStoreDB.writeChunk sha1 fd1 b = Returns (fd1, w2, mkRef (sha1 b)) ∧
     FileStoreDB.db fd1 = Some m1 ∧
     (m !! sha1 b = None →
        fdata (FileStoreDB.chunkFile fd1)
        = fdata (FileStoreDB.chunkFile fd) ++ chunk_record b ∧
        m1 !! sha1 b
        = Some (put_int64 (Z.of_nat (length (fdata (FileStoreDB.chunkFile fd))))) ∧
        size m1 = S (size m)) ∧
     (is_Some (m !! sha1 b) → fd1 = fd) ∧
     (size m1 ≤ S (size m))%nat).
Proof.
  intros Hm. split.
  - destruct (writeChunk_log sha1 fl b) as (f1 & w1 & H1 & Hsome & Hnone).
    assert (Hin : is_Some (FileStoreLog.rm f1 !! sha1 b)).
    { destruct (FileStoreLog.rm fl !! sha1 b) as [i|] eqn:Hi.
      - rewrite (Hsome (mk_is_Some _ _ eq_refl)). by rewrite Hi.
      - destruct (Hnone eq_refl) as [_ ->]. rewrite lookup_insert_eq. by eexists. }
    destruct (writeChunk_log sha1 f1 b) as (f2 & w2 & H2 & Hsome2 & _).
    rewrite (Hsome2 Hin) in H2.
    exists f1, w1, w2. split; [done|]. split; [done|].
    split; [|split; [done|]].
    + intros Hn. destruct (Hnone Hn) as [Hc Hrm]. split; [done|].
      rewrite Hrm. split; [by rewrite lookup_insert_eq|].
      by apply map_size_insert_None.
    + destruct (FileStoreLog.rm fl !! sha1 b) as [i|] eqn:Hi.
      * rewrite (Hsome (mk_is_Some _ _ eq_refl)). lia.
      * destruct (Hnone eq_refl) as [_ ->].
        rewrite map_size_insert_None by done. lia.
  - destruct (writeChunk_db sha1 fd m b Hm) as (f1 & w1 & H1 & Hsome & Hnone).
    assert (Hm1 : ∃ m1, FileStoreDB.db f1 = Some m1 ∧ is_Some (m1 !! sha1 b) ∧
                        (m !! sha1 b = None → m1 !! sha1 b
                           = Some (put_int64 (Z.of_nat (length (fdata (FileStoreDB.chunkFile fd)))))
                           ∧ size m1 = S (size m)) ∧
                        (size m1 ≤ S (size m))%nat).
    { destruct (m !! sha1 b) as [v|] eqn:Hv.
      - exists m. rewrite (Hsome (mk_is_Some _ _ eq_refl)), Hv.
        split; [done|]. split; [by eexists|]. split; [done|lia].
      - destruct (Hnone eq_refl) as [_ ->]. eexists. split; [done|].
        rewrite lookup_insert_eq, map_size_insert_None by done.
        split; [by eexists|]. split; [done|lia]. }
    destruct Hm1 as (m1 & Hdb1 & Hin & Hnew & Hsz).
    destruct (writeChunk_db sha1 f1 m1 b Hdb1) as (f2 & w2 & H2 & Hsome2 & _).
    rewrite (Hsome2 Hin) in H2.
    exists f1, m1, w1, w2. split; [done|]. split; [done|]. split; [done|].
    split; [|split; [done|done]].
    intros Hn. destruct (Hnone Hn) as [Hc _]. destruct (Hnew Hn). done.
Qed.

Lemma write_twice_one_record_witness :
  let sha1 := pad20 in
  let fl := FileStoreLog.NewFileStore in
  let fd := FileStoreDB.NewFileStore in
  let m : gmap (list byte) (list byte) := ∅ in
  let b := bytes_of "x" in
  (∃ fl1 w1 w2,
     FileStoreLog.writeChunk sha1 fl b = Returns (fl1, w1, mkRef (sha1 b)) ∧
     FileStoreLog.writeChunk sha1 fl1 b = Returns (fl1, w2, mkRef (sha1 b)) ∧
     (FileStoreLog.rm fl !! sha1 b = None →
        fdata (FileStoreLog.chunkFile fl1)
        = fdata (FileStoreLog.chunkFile fl) ++ chunk_record b ∧
        FileStoreLog.rm fl1 !! sha1 b
        = Some (Z.of_nat (length (fdata (FileStoreLog.chunkFile fl)))) ∧
        size (FileStoreLog.rm fl1) = S (size (FileStoreLog.rm fl))) ∧
     (is_Some (FileStoreLog.rm fl !! sha1 b) → fl1 = fl) ∧
     (size (FileStoreLog.rm fl1) ≤ S (size (FileStoreLog.rm fl)))%nat) ∧
  (∃ fd1 m1 w1 w2,
     FileStoreDB.writeChunk sha1 fd b = Returns (fd1, w1, mkRef (sha1 b)) ∧
     FileStoreDB.writeChunk sha1 fd1 b = Returns (fd1, w2, mkRef (sha1 b)) ∧
     FileStoreDB.db fd1 = Some m1 ∧
     (m !! sha1 b = None →
        fdata (FileStoreDB.chunkFile fd1)
        = fdata (FileStoreDB.chunkFile fd) ++ chunk_record b ∧
        m1 !! sha1 b
        = Some (put_int64 (Z.of_nat (length (fdata (FileStoreDB.chunkFile fd))))) ∧
        size m1 = S (size m)) ∧
     (is_Some (m !! sha1 b) → fd1 = fd) ∧
     (size m1 ≤ S (size m))%nat).
Proof.
  apply (write_twice_one_record pad20
           FileStoreLog.NewFileStore FileStoreDB.NewFileStore ∅ (bytes_of "x")).
  reflexivity.
Defined.

(** The scenario of the spec: "x" put twice on an empty store leaves one
    record in the chunks file and one entry in the index. *)
Example put_x_twice :
  ∃ f1 w1 f2 w2 r,
    FileStoreLog.writeChunk pad20 FileStoreLog.NewFileStore (bytes_of "x")
    = Returns (f1, w1, r) ∧
    FileStoreLog.writeChunk pad20 f1 (bytes_of "x") = Returns (f2, w2, r) ∧
    fdata (FileStoreLog.chunkFile f2) = chunk_record (bytes_of "x") ∧
    size (FileStoreLog.rm f2) = 1%nat.
Proof. eexists _, _, _, _, _. repeat (split; [reflexivity|]). reflexivity. Qed.

(** ** The writer's states *)

Section writer_states.

Variable sha1 : list byte → Sha1Digest.

(** When the hash is not indexed, [Close] stores the chunk and sets
    [buffer] to nil: from then on [Write] panics and [Close] does
    nothing. *)
Lemma Close_new_chunk_finalizes (f : FileStoreLog.FileStore) (w : fileChunkWriter)
    (b : list byte) :
  buffer w = Some b →
  FileStoreLog.rm f !! sha1 (hash w) = None →
  ∃ f' w',
    FileStoreLog.Close sha1 f w = Returns (f', w', None) ∧
    buffer w' = None ∧
    (∀ data, FileStoreLog.Write w' data = Panics) ∧
    (∀ g, FileStoreLog.Close sha1 g w' = Returns (g, w', None)).
Proof.
  intros Hb Hi. unfold FileStoreLog.Close at 1. rewrite Hb. simpl. rewrite Hi.
  rewrite osFile_Seek_end. simpl. rewrite decide_True by done.
  eexists _, _. split; [done|]. split; [done|]. split; [done|].
  intros g. done.
Qed.

(** When the hash is already indexed, [Close] returns before
    [w.buffer = nil]: the writer is as it was, and [Write] still goes
    through. *)
Lemma Close_indexed_chunk_stays_open (f : FileStoreLog.FileStore) (w : fileChunkWriter)
    (b : list byte) :
  buffer w = Some b →
  is_Some (FileStoreLog.rm f !! sha1 (hash w)) →
  FileStoreLog.Close sha1 f w = Returns (f, w, None) ∧
  ∀ data, FileStoreLog.Write w data
          = Returns ({| buffer := Some (b ++ data); hash := hash w ++ data |},
                     (Z.of_nat (length data), None)).
Proof.
  intros Hb [i Hi]. unfold FileStoreLog.Close, FileStoreLog.Write.
  rewrite Hb. simpl. by rewrite Hi.
Qed.

End writer_states.

(** C8, on the code. A store already holds the chunk "x". A second writer
    is given "x" and closed: [Close] returns nil and leaves the writer
    open, so the [Write] of "y" that follows returns [(1, nil)] where it
    should panic, and [Ref()] then returns the Ref of "xy" where it
    returned the Ref of "x" before. Both variants. *)
Theorem Write_succeeds_after_Close :
  (∃ f1 w0 r w1 w2 f2 w3,
     FileStoreLog.writeChunk pad20 FileStoreLog.NewFileStore (bytes_of "x")
     = Returns (f1, w0, r) ∧
     FileStoreLog.Write (FileStoreLog.Put f1) (bytes_of "x") = Returns (w1, (1, None)) ∧
     FileStoreLog.Close pad20 f1 w1 = Returns (f1, w1, None) ∧
     FileStoreLog.WriterRef pad20 f1 w1 = Returns (f1, w1, (r, None)) ∧
     FileStoreLog.Write w1 (bytes_of "y") = Returns (w2, (1, None)) ∧
     FileStoreLog.WriterRef pad20 f1 w2
     = Returns (f2, w3, (mkRef (pad20 (bytes_of "xy")), None)) ∧
     mkRef (pad20 (bytes_of "xy")) ≠ r) ∧
  (∃ f1 w0 r w1 w2 f2 w3,
     FileStoreDB.writeChunk pad20 FileStoreDB.NewFileStore (bytes_of "x")
     = Returns (f1, w0, r) ∧
     FileStoreDB.Write (FileStoreDB.Put f1) (bytes_of "x") = Returns (w1, (1, None)) ∧
     FileStoreDB.Close pad20 f1 w1 = Returns (f1, w1, None) ∧
     FileStoreDB.WriterRef pad20 f1 w1 = Returns (f1, w1, (r, None)) ∧
     FileStoreDB.Write w1 (bytes_of "y") = Returns (w2, (1, None)) ∧
     FileStoreDB.WriterRef pad20 f1 w2
     = Returns (f2, w3, (mkRef (pad20 (bytes_of "xy")), None)) ∧
     mkRef (pad20 (bytes_of "xy")) ≠ r).
Proof.
  split; eexists _, _, _, _, _, _, _;
    repeat (split; [reflexivity|]); intros H; vm_compute in H; discriminate.
Qed.

(** ** Durability order *)

(** The calls one successful [UpdateRoot] issues, in order. *)
Lemma UpdateRoot_trace_log (f f' : FileStoreLog.FileStore) (new expected : Ref) :
  FileStoreLog.UpdateRoot f new expected = Returns (f', true) →
  FileStoreLog.trace f'
  = FileStoreLog.trace f
    ++ [SysTruncate RootFile; SysWrite RootFile (Ref_String new);
        SysSync ChunkFile; SysSync RefMapFile].
Proof.
  unfold FileStoreLog.UpdateRoot.
  destruct (readRef _) as [existing| |]; simpl; [|done..].
  destruct (decide (existing ≠ expected)); intros [= <-]; simpl.
  by rewrite <- app_assoc.
Qed.

Lemma UpdateRoot_trace_db (f f' : FileStoreDB.FileStore) (new expected : Ref) :
  FileStoreDB.UpdateRoot f new expected = Returns (f', true) →
  FileStoreDB.trace f'
  = FileStoreDB.trace f
    ++ [SysTruncate RootFile; SysWrite RootFile (Ref_String new); SysSync ChunkFile].
Proof.
  unfold FileStoreDB.UpdateRoot. destruct (FileStoreDB.db f); [|done].
  destruct (readRef _) as [existing| |]; simpl; [|done..].
  destruct (decide (existing ≠ expected)); intros [= <-]; simpl.
  by rewrite <- app_assoc.
Qed.

(** C5, on the code. The chunk "x" is written to an empty store and
    [UpdateRoot(A, zero)] succeeds. The calls of the two operations, in
    order: the root file is truncated and rewritten while the chunk and
    its index entry are not yet synced; the syncs come after (and the
    variant with the key-value store syncs the chunks file only). *)
Theorem UpdateRoot_writes_root_before_sync :
  (∃ f1 w r f2,
     FileStoreLog.writeChunk pad20 FileStoreLog.NewFileStore (bytes_of "x")
     = Returns (f1, w, r) ∧
     FileStoreLog.UpdateRoot f1 refA zeroRef = Returns (f2, true) ∧
     FileStoreLog.trace f2
     = [SysWrite ChunkFile (put_int64 1); SysWrite ChunkFile (bytes_of "x");
        SysWrite RefMapFile (pad20 (bytes_of "x")); SysWrite RefMapFile (put_int64 0);
        SysTruncate RootFile; SysWrite RootFile (Ref_String refA);
        SysSync ChunkFile; SysSync RefMapFile] ∧
     synced_before_root false false (FileStoreLog.trace f2) = false) ∧
  (∃ f1 w r f2,
     FileStoreDB.writeChunk pad20 FileStoreDB.NewFileStore (bytes_of "x")
     = Returns (f1, w, r) ∧
     FileStoreDB.UpdateRoot f1 refA zeroRef = Returns (f2, true) ∧
     FileStoreDB.trace f2
     = [SysWrite ChunkFile (put_int64 1); SysWrite ChunkFile (bytes_of "x");
        SysWrite IndexDB (pad20 (bytes_of "x") ++ put_int64 0);
        SysTruncate RootFile; SysWrite RootFile (Ref_String refA);
        SysSync ChunkFile] ∧
     synced_before_root false false (FileStoreDB.trace f2) = false).
Proof.
  split; eexists _, _, _, _; repeat (split; [reflexivity|]); reflexivity.
Qed.

(** ** getLeaves delivers in order *)

Lemma wf_GetLeaves c sp slots ic dr :
  wf c (GoGetLeaves sp slots ic dr)
  ↔ wf_ctl c sp slots ic dr ∧ Forall (λ s, wf (fst s) (snd s)) slots.
Proof.
  simpl. apply and_iff_compat_l.
  induction slots as [|s slots IH]; [by split|].
  rewrite Forall_cons. by rewrite IH.
Qed.

Lemma pending_GetLeaves sp slots ic dr :
  pending (GoGetLeaves sp slots ic dr)
  = pendingDr dr
    ++ concat (map (λ s, cbuf (fst s) ++ pending (snd s)) slots)
    ++ pendingSp sp.
Proof. done. Qed.

Lemma cost_GetLeaves sp slots ic dr :
  cost (GoGetLeaves sp slots ic dr)
  = (costSp sp
     + sum_list (map (λ s, cost (snd s) + 2
                           + 2 * length (cbuf (fst s) ++ pending (snd s))) slots)
     + costDr dr)%nat.
Proof. done. Qed.

(** A goroutine whose channel is closed has nothing left to deliver. *)
Lemma wf_closed_pending c g :
  wf c g → cclosed c = true → pending g = [].
Proof.
  destruct g as [f|f|bl| | |sp slots ic dr]; try (by simpl; intros ->); try done.
  rewrite wf_GetLeaves. intros [(Hc & Hic & _ & _ & Hdone & _) _] Hcl.
    apply Hc in Hcl as ->. destruct Hdone as [-> Hi]; [by right|].
    apply Hic in Hi as ->. done.
Qed.

Lemma wf_slot_in (slots1 slots2 : list (chan * goroutine)) ch g :
  Forall (λ s, wf (fst s) (snd s)) (slots1 ++ (ch, g) :: slots2) → wf ch g.
Proof. rewrite Forall_app, Forall_cons. by intros (_ & ? & _). Qed.

Lemma pending_slots_middle (slots1 slots2 : list (chan * goroutine)) ch g :
  concat (map (λ s, cbuf (fst s) ++ pending (snd s)) (slots1 ++ (ch, g) :: slots2))
  = concat (map (λ s, cbuf (fst s) ++ pending (snd s)) slots1)
    ++ (cbuf ch ++ pending g)
    ++ concat (map (λ s, cbuf (fst s) ++ pending (snd s)) slots2).
Proof. by rewrite map_app, concat_app. Qed.

(** No step loses, adds or reorders a leaf: the buffer of the channel
    followed by what the goroutine has yet to deliver stays the same. *)
Lemma gstep_pending cap c g c' g' :
  gstep cap c g c' g' → wf c g →
  cbuf c' ++ pending g' = cbuf c ++ pending g.
Proof.
  induction 1 as
    [c data|c offsets futures|buf bl Hlen|buf|c fs|c f fs slots dr Hlen
    |c f fs slots ch dr|c slots dr|c sp s slots ic|c sp
    |c sp bl buf cl g slots ic|c sp g slots ic|buf sp slots ic bl Hlen
    |buf sp slots ic|c sp slots1 ch g ch' g' slots2 ic dr Hstep IH];
    intros Hwf.
  all: try (apply wf_GetLeaves in Hwf as [Hctl Hall]).
  all: rewrite ?pending_GetLeaves, ?pending_slots_middle.
  all: try (apply wf_slot_in in Hall; rewrite (IH Hall)).
  all: simpl.
  all: try (apply Forall_cons in Hall as [Hg _]; simpl in Hg;
            rewrite ?(wf_closed_pending _ _ Hg eq_refl)).
  all: rewrite ?app_nil_r, <- ?app_assoc; simpl; done.
Qed.

Lemma gstep_source_started cap c g c' g' :
  gstep cap c g c' g' → isPending g = false.
Proof. by inversion 1. Qed.

Lemma gstep_target_started cap c g c' g' :
  gstep cap c g c' g' → isPending g' = false.
Proof. by inversion 1. Qed.

Lemma wf_received bl buf cl g :
  wf {| cbuf := bl :: buf; cclosed := cl |} g →
  wf {| cbuf := buf; cclosed := cl |} g.
Proof.
  by destruct g as [f|f|bl'| | |sp slots ic dr].
Qed.

Lemma app_last_middle {A} (l1 l2 l : list A) (x p : A) :
  l1 ++ x :: l2 = l ++ [p] →
  (l2 = [] ∧ x = p ∧ l1 = l) ∨ (∃ l2', l2 = l2' ++ [p] ∧ l = l1 ++ x :: l2').
Proof.
  destruct l2 as [|y l2 _] using rev_ind.
  - intros H. apply app_inj_tail in H as [-> ->]. by left.
  - intros H. right. exists l2.
    change (l1 ++ x :: l2 ++ [y]) with (l1 ++ (x :: l2) ++ [y]) in H.
    rewrite app_assoc in H. apply app_inj_tail in H as [<- ->]. done.
Qed.

Lemma noPending_middle (slots1 slots2 : list (chan * goroutine)) ch g ch' g' :
  isPending g' = false →
  noPending (slots1 ++ (ch, g) :: slots2) → noPending (slots1 ++ (ch', g') :: slots2).
Proof.
  unfold noPending. rewrite !Forall_app, !Forall_cons. naive_solver.
Qed.

Lemma noPending_app l1 l2 : noPending (l1 ++ l2) ↔ noPending l1 ∧ noPending l2.
Proof. unfold noPending. by rewrite Forall_app. Qed.

Lemma noPending_cons s l : noPending (s :: l) ↔ isPending (snd s) = false ∧ noPending l.
Proof. unfold noPending. by rewrite Forall_cons. Qed.

Lemma app_cons_not_nil' {A} (l1 l2 : list A) x : l1 ++ x :: l2 ≠ [].
Proof. by destruct l1. Qed.

Lemma wf_nonempty_started c g : wf c g → cbuf c ≠ [] → isPending g = false.
Proof. destruct g; try done. simpl. by intros ->. Qed.

Lemma wf_closed_started c g : wf c g → cclosed c = true → isPending g = false.
Proof. destruct g; try done. simpl. by intros ->. Qed.

Lemma slotsOk_middle sp (l1 l2 : list (chan * goroutine)) ch g ch' g' :
  isPending g = false → isPending g' = false →
  slotsOk sp (l1 ++ (ch, g) :: l2) → slotsOk sp (l1 ++ (ch', g') :: l2).
Proof.
  intros Hg Hg'. unfold slotsOk.
  destruct sp; try (by apply noPending_middle).
  intros (l & chp & fp & Heq & Hl).
  apply app_last_middle in Heq as [(_ & [= _ ->] & _)|(l2' & -> & ->)]; [done|].
  exists (l1 ++ (ch', g') :: l2'), chp, fp. split.
  - by rewrite <- app_assoc.
  - by apply (noPending_middle l1 l2' ch g).
Qed.

Lemma slotsOk_tail sp (l : list (chan * goroutine)) ch g :
  isPending g = false → slotsOk sp ((ch, g) :: l) → slotsOk sp l.
Proof.
  intros Hg. unfold slotsOk.
  destruct sp; try (by intros [_ ?]%noPending_cons).
  intros (l0 & chp & fp & Heq & Hl).
  destruct l0 as [|s l0]; simpl in Heq.
  - by simplify_eq/=.
  - simplify_eq/=. apply noPending_cons in Hl as [_ Hl]. by exists l0, chp, fp.
Qed.

Ltac ctl_auto :=
  try done; try congruence;
  try (intros _; apply app_cons_not_nil');
  try (timeout 3 (solve [intuition (try congruence; try discriminate; eauto)]));
  try (timeout 3 (solve [naive_solver])).

Lemma gstep_wf cap c g c' g' :
  gstep cap c g c' g' → wf c g → wf c' g'.
Proof.
  induction 1 as
    [c data|c offsets futures|buf bl Hlen|buf|c fs|c f fs slots dr Hlen
    |c f fs slots ch dr|c slots dr|c sp s slots ic|c sp
    |c sp bl buf cl g slots ic|c sp g slots ic|buf sp slots ic bl Hlen
    |buf sp slots ic|c sp slots1 ch g ch' g' slots2 ic dr Hstep IH];
    intros Hwf; try done.
  - (* deref_compound *)
    simpl in Hwf. subst c. apply wf_GetLeaves. split; [|constructor].
    unfold wf_ctl; simpl. repeat split; ctl_auto. constructor.
  - (* go_spawner *)
    apply wf_GetLeaves in Hwf as [(Hc & Hic & Hgo & Hgo0 & Hdone & Hcur & Hpend) Hall].
    apply wf_GetLeaves. split; [|done].
    unfold wf_ctl; simpl in *. repeat split; ctl_auto.
  - (* spawner_send *)
    apply wf_GetLeaves in Hwf as [(Hc & Hic & Hgo & Hgo0 & Hdone & Hcur & Hpend) Hall].
    apply wf_GetLeaves. split.
    + unfold wf_ctl, slotsOk in *; simpl in *. repeat split; ctl_auto.
    + apply Forall_app. split; [done|]. by constructor.
  - (* spawner_go *)
    apply wf_GetLeaves in Hwf as [(Hc & Hic & Hgo & Hgo0 & Hdone & Hcur & Hpend) Hall].
    destruct Hpend as (l & ch0 & f0 & Heq & Hl).
    apply app_inj_tail in Heq as [-> _].
    apply wf_GetLeaves. split.
    + unfold wf_ctl, slotsOk; simpl in *. repeat split; ctl_auto.
      apply noPending_app. split; [done|]. by constructor.
    + apply Forall_app in Hall as [Hall1 Hall2]. apply Forall_app. split; [done|].
      apply Forall_cons in Hall2 as [Hp _]. by constructor.
  - (* spawner_close *)
    apply wf_GetLeaves in Hwf as [(Hc & Hic & Hgo & Hgo0 & Hdone & Hcur & Hpend) Hall].
    apply wf_GetLeaves. split; [|done].
    unfold wf_ctl, slotsOk in *; simpl in *. repeat split; ctl_auto.
  - (* range_in *)
    apply wf_GetLeaves in Hwf as [(Hc & Hic & Hgo & Hgo0 & Hdone & Hcur & Hpend) Hall].
    apply wf_GetLeaves. split; [|done].
    unfold wf_ctl in *; simpl in *. repeat split; ctl_auto.
  - (* range_in_closed *)
    apply wf_GetLeaves in Hwf as [(Hc & Hic & Hgo & Hgo0 & Hdone & Hcur & Hpend) Hall].
    apply wf_GetLeaves. split; [|done].
    unfold wf_ctl in *; simpl in *. repeat split; ctl_auto.
  - (* range_ch *)
    apply wf_GetLeaves in Hwf as [(Hc & Hic & Hgo & Hgo0 & Hdone & Hcur & Hpend) Hall].
    apply Forall_cons in Hall as [Hhead Hall]. simpl in Hhead.
    pose proof (wf_nonempty_started _ _ Hhead ltac:(done)) as Hst.
    apply wf_GetLeaves. split.
    + unfold wf_ctl in *; simpl in *. repeat split; ctl_auto.
      by apply (slotsOk_middle sp [] slots {| cbuf := bl :: buf; cclosed := cl |} g
                  {| cbuf := buf; cclosed := cl |} g Hst Hst).
    + constructor; [|done]. by apply wf_received in Hhead.
  - (* range_ch_closed *)
    apply wf_GetLeaves in Hwf as [(Hc & Hic & Hgo & Hgo0 & Hdone & Hcur & Hpend) Hall].
    apply Forall_cons in Hall as [Hhead Hall]. simpl in Hhead.
    pose proof (wf_closed_started _ _ Hhead eq_refl) as Hst.
    apply slotsOk_tail in Hpend; [|done].
    apply wf_GetLeaves. split; [|done].
    unfold wf_ctl in *; simpl in *. repeat split; ctl_auto.
  - (* send_out *)
    apply wf_GetLeaves in Hwf as [(Hc & Hic & Hgo & Hgo0 & Hdone & Hcur & Hpend) Hall].
    apply wf_GetLeaves. split; [|done].
    unfold wf_ctl in *; simpl in *. repeat split; ctl_auto.
  - (* close_out *)
    apply wf_GetLeaves in Hwf as [(Hc & Hic & Hgo & Hgo0 & Hdone & Hcur & Hpend) Hall].
    apply wf_GetLeaves. split; [|done].
    unfold wf_ctl in *; simpl in *. repeat split; ctl_auto.
  - (* inner *)
    apply wf_GetLeaves in Hwf as [(Hc & Hic & Hgo & Hgo0 & Hdone & Hcur & Hpend) Hall].
    pose proof (gstep_source_started _ _ _ _ _ Hstep) as Hs.
    pose proof (gstep_target_started _ _ _ _ _ Hstep) as Ht.
    apply wf_GetLeaves. split.
    + unfold wf_ctl in *; simpl in *. repeat split; ctl_auto.
      * intros Hd. apply Hgo0 in Hd. by destruct slots1.
      * match goal with H : _ ∨ _ |- _ => apply Hdone in H as [Hd _] end.
        by destruct slots1.
      * by apply (slotsOk_middle sp slots1 slots2 ch g ch' g').
    + apply Forall_app in Hall as [H1 [Hg H2]%Forall_cons].
      apply Forall_app. split; [done|]. constructor; [|done]. by apply IH.
Qed.

Lemma cost_slots_middle (slots1 slots2 : list (chan * goroutine)) ch g :
  sum_list (map (λ s, cost (snd s) + 2 + 2 * length (cbuf (fst s) ++ pending (snd s)))%nat
              (slots1 ++ (ch, g) :: slots2))
  = (sum_list (map (λ s, cost (snd s) + 2 + 2 * length (cbuf (fst s) ++ pending (snd s)))%nat slots1)
     + (cost g + 2 + 2 * length (cbuf ch ++ pending g))
     + sum_list (map (λ s, cost (snd s) + 2 + 2 * length (cbuf (fst s) ++ pending (snd s)))%nat slots2))%nat.
Proof. rewrite map_app, sum_list_with_app. simpl. lia. Qed.

Lemma blobCost_compound offsets fs :
  blobCost (compoundBlob offsets fs) = (5 + sum_list (map futureCost fs))%nat.
Proof. done. Qed.

(** Every step uses up some of the work left. *)
Lemma gstep_cost cap c g c' g' :
  gstep cap c g c' g' → wf c g → (cost g' < cost g)%nat.
Proof.
  induction 1 as
    [c data|c offsets futures|buf bl Hlen|buf|c fs|c f fs slots dr Hlen
    |c f fs slots ch dr|c slots dr|c sp s slots ic|c sp
    |c sp bl buf cl g slots ic|c sp g slots ic|buf sp slots ic bl Hlen
    |buf sp slots ic|c sp slots1 ch g ch' g' slots2 ic dr Hstep IH];
    intros Hwf.
  all: try (apply wf_GetLeaves in Hwf as [Hctl Hall]).
  all: rewrite ?cost_GetLeaves, ?cost_slots_middle.
  all: try (pose proof (gstep_pending _ _ _ _ _ Hstep (wf_slot_in _ _ _ _ Hall)) as Hp;
            specialize (IH (wf_slot_in _ _ _ _ Hall)); rewrite Hp).
  all: simpl; rewrite ?blobCost_compound; unfold futureCost; simpl;
       rewrite ?length_app; simpl; lia.
Qed.

Lemma goroutine_ind_slots (P : goroutine → Prop) :
  (∀ f, P (GoPending f)) → (∀ f, P (GoDeref f)) → (∀ bl, P (GoSend bl)) →
  P GoClose → P GoReturned →
  (∀ sp slots ic dr, Forall (λ s, P (snd s)) slots → P (GoGetLeaves sp slots ic dr)) →
  ∀ g, P g.
Proof.
  intros HP HD HS HC HR HG. fix IH 1.
  intros [f|f|bl| | |sp slots ic dr];
    [apply HP|apply HD|apply HS|apply HC|apply HR|].
  apply HG. induction slots as [|[ch g] slots IHs]; constructor; [apply IH|apply IHs].
Qed.

(** A goroutine whose channel is open and has room is never stuck: it, or
    a goroutine below it, has a step to take. *)
Lemma gstep_progress cap g :
  (0 < cap)%nat →
  ∀ c, wf c g → cclosed c = false → (length (cbuf c) < cap)%nat →
       isPending g = false → ∃ c' g', gstep cap c g c' g'.
Proof.
  intros Hcap. induction g as [f|f|bl| | |sp slots ic dr IH] using goroutine_ind_slots;
    intros [buf cl] Hwf Hcl Hroom Hst; simpl in *; subst; try done.
  - destruct f; eexists _, _; constructor.
  - injection Hwf as ->. eexists _, _. by constructor.
  - eexists _, _. constructor.
  - apply wf_GetLeaves in Hwf as [(Hc & Hic & Hgo & Hgo0 & Hdone & Hcur & Hpend) Hall].
    simpl in *.
    destruct dr as [| | |bl| |].
    + destruct Hgo as [_ [fs ->]]; [done|]. rewrite (Hgo0 eq_refl).
      assert (ic = false) as ->
        by (destruct ic; [destruct Hic as [Hic _]; discriminate (Hic eq_refl)|done]).
      eexists _, _. constructor.
    + destruct slots as [|s slots].
      * destruct ic.
        -- eexists _, _. constructor.
        -- destruct sp as [fs|[|f fs]|fs|].
           ++ destruct Hgo as [Hgo _]. by specialize (Hgo (ex_intro _ fs eq_refl)).
           ++ eexists _, _. constructor.
           ++ eexists _, _. apply (gstep_spawner_send cap _ f fs [] DrRangeIn). simpl. lia.
           ++ destruct Hpend as (l & ? & ? & Heq & _). by destruct l.
           ++ by destruct Hic as [_ Hic]; specialize (Hic eq_refl).
      * eexists _, _. constructor.
    + destruct slots as [|[[hbuf hcl] hg] slots]; [by destruct Hcur; [left|]|].
      destruct hbuf as [|bl hbuf]; [|eexists _, _; constructor].
      destruct hcl; [eexists _, _; constructor|].
      apply Forall_cons in IH as [IHh _]. apply Forall_cons in Hall as [Hh _].
      simpl in *.
      destruct (isPending hg) eqn:Ehg.
      * destruct hg; try done.
        destruct sp as [fs|fs|fs|]; unfold slotsOk in Hpend;
          try (by apply noPending_cons in Hpend as [? _]).
        destruct Hpend as (l & chp & fp & -> & _).
        assert (ic = false) as ->
          by (destruct ic; [destruct Hic as [Hic _]; discriminate (Hic eq_refl)|done]).
        eexists _, _. constructor.
      * destruct (IHh _ Hh eq_refl ltac:(simpl; lia) eq_refl) as (c' & g' & Hstep).
        eexists _, _. apply (gstep_inner cap _ sp [] _ hg c' g' slots ic DrRangeCh Hstep).
    + eexists _, _. by constructor.
    + eexists _, _. constructor.
    + by destruct Hc as [_ Hc]; specialize (Hc eq_refl).
Qed.

Lemma startLeaves_wf fs : wfPipeline (startLeaves fs).
Proof.
  split; [|done]. apply wf_GetLeaves. split; [|constructor].
  unfold wf_ctl, slotsOk; simpl. repeat split; try done; try naive_solver.
  constructor.
Qed.

Lemma step_wf s s' : step s s' → wfPipeline s → wfPipeline s'.
Proof.
  intros [c g c' g' rcv Hg|bl buf cl g rcv] [Hwf Hst]; simpl in *.
  - split; [by eapply gstep_wf|by eapply gstep_target_started].
  - split; [by apply wf_received in Hwf|done].
Qed.

Lemma step_allLeaves s s' : step s s' → wfPipeline s → allLeaves s' = allLeaves s.
Proof.
  intros [c g c' g' rcv Hg|bl buf cl g rcv] [Hwf Hst]; unfold allLeaves; simpl in *.
  - by rewrite (gstep_pending _ _ _ _ _ Hg Hwf).
  - by rewrite <- app_assoc.
Qed.

Lemma step_cost s s' :
  step s s' → wfPipeline s → (pipelineCost s' < pipelineCost s)%nat.
Proof.
  intros [c g c' g' rcv Hg|bl buf cl g rcv] [Hwf Hst]; unfold pipelineCost; simpl in *.
  - rewrite (gstep_pending _ _ _ _ _ Hg Hwf).
    pose proof (gstep_cost _ _ _ _ _ Hg Hwf). lia.
  - lia.
Qed.

Lemma reachable_wf s s' : rtc step s s' → wfPipeline s → wfPipeline s'.
Proof. induction 1; eauto using step_wf. Qed.

Lemma reachable_allLeaves s s' :
  rtc step s s' → wfPipeline s → allLeaves s' = allLeaves s.
Proof.
  induction 1 as [|s1 s2 s3 H12 H23 IH]; [done|]. intros Hwf.
  rewrite IH by eauto using step_wf. by apply step_allLeaves.
Qed.

Lemma startLeaves_allLeaves fs :
  allLeaves (startLeaves fs) = concat (map leavesInOrder fs).
Proof. unfold allLeaves. simpl. done. Qed.

Lemma rangeEnded_received s :
  wfPipeline s → rangeEnded s → allLeaves s = received s.
Proof.
  intros [Hwf _] [Hbuf Hcl]. unfold allLeaves.
  by rewrite Hbuf, (wf_closed_pending _ _ Hwf Hcl), app_nil_r.
Qed.

Lemma pipeline_progress s :
  wfPipeline s → rangeEnded s ∨ ∃ s', step s s'.
Proof.
  destruct s as [[buf cl] g rcv]. intros [Hwf Hst]. simpl in *.
  destruct buf as [|bl buf].
  - destruct cl; [by left|]. right.
    destruct (gstep_progress leavesCap g ltac:(unfold leavesCap; lia) _ Hwf eq_refl
                ltac:(simpl; unfold leavesCap; lia) Hst) as (c' & g' & Hg).
    eexists. by apply step_producer.
  - right. eexists. apply step_receive.
Qed.

(** X1. Whatever the scheduler does, the leaves received from
    [cbr.leaves], followed by those in its buffer and those still to come,
    are the leaves of the single-threaded walk; when the reader's [range]
    ends, it has received all of them, in that order. *)
Theorem getLeaves_in_order (futures : list Blob) (s : pipeline) :
  rtc step (startLeaves futures) s →
  received s ++ cbuf (out s) ++ pending (producer s)
  = concat (map leavesInOrder futures) ∧
  (rangeEnded s → received s = concat (map leavesInOrder futures)).
Proof.
  intros Hr.
  pose proof (reachable_allLeaves _ _ Hr (startLeaves_wf futures)) as Hall.
  rewrite startLeaves_allLeaves in Hall. split; [done|].
  intros Hend. rewrite <- Hall. symmetry.
  apply rangeEnded_received; [|done].
  by eapply reachable_wf, startLeaves_wf.
Qed.

(** X2. No schedule gets stuck: until the reader's [range] has
    ended, some goroutine or the reader has a step to take. *)
Theorem getLeaves_never_stuck (futures : list Blob) (s : pipeline) :
  rtc step (startLeaves futures) s →
  rangeEnded s ∨ ∃ s', step s s'.
Proof.
  intros Hr. apply pipeline_progress. by eapply reachable_wf, startLeaves_wf.
Qed.

Lemma nsteps_cost n s s' :
  nsteps step n s s' → wfPipeline s →
  wfPipeline s' ∧ (n + pipelineCost s' ≤ pipelineCost s)%nat.
Proof.
  induction 1 as [|n s1 s2 s3 H12 H23 IH]; intros Hwf; [split; [done|lia]|].
  destruct (IH (step_wf _ _ H12 Hwf)) as [Hwf3 Hle]. split; [done|].
  pose proof (step_cost _ _ H12 Hwf). lia.
Qed.

(** X3. No schedule runs for ever: a run from the start has at
    most [pipelineCost (startLeaves futures)] steps. *)
Theorem getLeaves_runs_are_bounded (futures : list Blob) (n : nat) (s : pipeline) :
  nsteps step n (startLeaves futures) s →
  (n ≤ pipelineCost (startLeaves futures))%nat.
Proof.
  intros Hn. destruct (nsteps_cost _ _ _ Hn (startLeaves_wf futures)). lia.
Qed.

Lemma pipeline_completes_from (k : nat) :
  ∀ s, wfPipeline s → (pipelineCost s ≤ k)%nat →
       ∃ s', rtc step s s' ∧ rangeEnded s'.
Proof.
  induction k as [|k IH]; intros s Hwf Hk.
  - destruct (pipeline_progress s Hwf) as [Hend|[s' Hs]].
    + exists s. split; [apply rtc_refl|done].
    + pose proof (step_cost _ _ Hs Hwf). lia.
  - destruct (pipeline_progress s Hwf) as [Hend|[s' Hs]].
    + exists s. split; [apply rtc_refl|done].
    + pose proof (step_cost _ _ Hs Hwf).
      destruct (IH s' (step_wf _ _ Hs Hwf) ltac:(lia)) as (s'' & Hr & Hend).
      exists s''. split; [by eapply rtc_l|done].
Qed.

(** X4. The pipeline does deliver: from the start there is a run
    to the end of the reader's [range], and at its end the reader has
    received the leaves of the single-threaded walk. *)
Theorem getLeaves_completes (futures : list Blob) :
  ∃ s, rtc step (startLeaves futures) s ∧ rangeEnded s ∧
       received s = concat (map leavesInOrder futures).
Proof.
  destruct (pipeline_completes_from _ _ (startLeaves_wf futures) (le_n _))
    as (s & Hr & Hend).
  exists s. split; [done|]. split; [done|].
  pose proof (reachable_allLeaves _ _ Hr (startLeaves_wf futures)) as Hall.
  rewrite startLeaves_allLeaves in Hall. rewrite <- Hall. symmetry.
  apply rangeEnded_received; [|done]. by eapply reachable_wf, startLeaves_wf.
Qed.

(** C6, on the code. For every tree and every schedule of the goroutines
    of [getLeaves], the leaves the reader has received are the first
    leaves of the single-threaded walk, the run can go on until the
    reader's [range] ends, and then the reader has received the whole
    walk: the order is kept. The bytes that [Read] delivers from those
    leaves are not the bytes of the walk: for the one leaf "abcdef" read
    with buffers of two bytes, every schedule hands [Read] the leaf
    "abcdef", and [Read] delivers "abcd". *)
Theorem leaves_in_order_bytes_lost :
  (∀ (offsets : list Z) (futures : list Blob) (s : pipeline),
     rtc step (startLeaves futures) s →
     received s `prefix_of` leavesInOrder (compoundBlob offsets futures) ∧
     (rangeEnded s ∨ ∃ s', step s s') ∧
     (rangeEnded s → received s = leavesInOrder (compoundBlob offsets futures))) ∧
  (let b := compoundBlob [6] [blobLeaf (bytes_of "abcdef")] in
   leaves (fst (Seek (Reader [6] [blobLeaf (bytes_of "abcdef")]) 0 0))
   = Some (leavesInOrder b) ∧
   let '(bs, _, _) :=
     readWith (Reader [6] [blobLeaf (bytes_of "abcdef")]) [2; 2; 2; 2]%nat in
   bs = bytes_of "abcd" ∧ bs ≠ blobBytes b).
Proof.
  split.
  - intros offsets futures s Hr.
    pose proof (reachable_wf _ _ Hr (startLeaves_wf futures)) as Hwf.
    pose proof (reachable_allLeaves _ _ Hr (startLeaves_wf futures)) as Hall.
    rewrite startLeaves_allLeaves in Hall. unfold allLeaves in Hall.
    change (leavesInOrder (compoundBlob offsets futures))
      with (concat (map leavesInOrder futures)).
    split; [|split].
    + rewrite <- Hall. by eexists.
    + by apply pipeline_progress.
    + intros Hend. rewrite <- (rangeEnded_received s Hwf Hend).
      by rewrite <- startLeaves_allLeaves, <- (reachable_allLeaves _ _ Hr (startLeaves_wf futures)).
  - vm_compute. repeat split. discriminate.
Qed.

(** One schedule for the single leaf "a", run to the end of the reader's
    [range]. *)
Lemma run_of_one_leaf :
  rtc step (startLeaves [blobLeaf (bytes_of "a")])
    {| out := {| cbuf := []; cclosed := true |};
       producer := GoGetLeaves SpReturned [] true DrReturned;
       received := [bytes_of "a"] |}.
Proof.
  pose (a := bytes_of "a").
  eapply rtc_l; [apply step_producer, gstep_go_spawner|].
  eapply rtc_l; [apply step_producer;
    apply (gstep_spawner_send leavesCap _ (blobLeaf a) [] [] DrRangeIn);
    apply Nat.lt_0_succ|].
  eapply rtc_l; [apply step_producer;
    apply (gstep_spawner_go leavesCap _ (blobLeaf a) [] [] make_chan DrRangeIn)|].
  eapply rtc_l; [apply step_producer;
    apply (gstep_inner leavesCap _ (SpRange []) [] make_chan (GoDeref (blobLeaf a))
             make_chan (GoSend a) [] false DrRangeIn);
    apply gstep_deref_leaf|].
  eapply rtc_l; [apply step_producer;
    apply (gstep_inner leavesCap _ (SpRange []) [] make_chan (GoSend a)
             {| cbuf := [a]; cclosed := false |} GoClose [] false DrRangeIn);
    apply (gstep_send_leaf leavesCap [] a); apply Nat.lt_0_succ|].
  eapply rtc_l; [apply step_producer;
    apply (gstep_inner leavesCap _ (SpRange []) [] {| cbuf := [a]; cclosed := false |} GoClose
             {| cbuf := [a]; cclosed := true |} GoReturned [] false DrRangeIn);
    apply gstep_close_leaf|].
  eapply rtc_l; [apply step_producer, gstep_spawner_close|].
  eapply rtc_l; [apply step_producer, gstep_range_in|].
  eapply rtc_l; [apply step_producer, gstep_range_ch|].
  eapply rtc_l; [apply step_producer;
    apply (gstep_send_out leavesCap [] SpReturned _ true a); apply Nat.lt_0_succ|].
  eapply rtc_l; [apply step_producer, gstep_range_ch_closed|].
  eapply rtc_l; [apply step_producer, gstep_range_in_closed|].
  eapply rtc_l; [apply step_producer, (gstep_close_out leavesCap [a])|].
  eapply rtc_l; [apply step_receive|].
  apply rtc_refl.
Defined.

Lemma getLeaves_in_order_witness :
  let s := {| out := {| cbuf := []; cclosed := true |};
              producer := GoGetLeaves SpReturned [] true DrReturned;
              received := [bytes_of "a"] |} in
  received s ++ cbuf (out s) ++ pending (producer s)
  = concat (map leavesInOrder [blobLeaf (bytes_of "a")]) ∧
  (rangeEnded s → received s = concat (map leavesInOrder [blobLeaf (bytes_of "a")])).
Proof.
  apply (getLeaves_in_order [blobLeaf (bytes_of "a")]). exact run_of_one_leaf.
Defined.

Lemma getLeaves_never_stuck_witness :
  let s := {| out := make_chan;
              producer := GoGetLeaves (SpRange [blobLeaf (bytes_of "a")]) [] false DrRangeIn;
              received := [] |} in
  rangeEnded s ∨ ∃ s', step s s'.
Proof.
  apply (getLeaves_never_stuck [blobLeaf (bytes_of "a")]).
  eapply rtc_l; [apply step_producer, gstep_go_spawner|]. apply rtc_refl.
Defined.

Lemma getLeaves_runs_are_bounded_witness :
  (1 ≤ pipelineCost (startLeaves [blobLeaf (bytes_of "a")]))%nat.
Proof.
  apply (getLeaves_runs_are_bounded [blobLeaf (bytes_of "a")] 1
           {| out := make_chan;
              producer := GoGetLeaves (SpRange [blobLeaf (bytes_of "a")]) [] false DrRangeIn;
              received := [] |}).
  eapply nsteps_l; [apply step_producer, gstep_go_spawner|]. apply nsteps_O.
Defined.

(** ** Reading with buffers that hold a leaf *)

Lemma read_exhausted (r : bytesReader) (p : list byte) :
  Z.of_nat (length (rs r)) ≤ ri r → read r (frame0 p) = (r, frame0 p, false).
Proof.
  intros H. unfold read, bytesReader_Read, frame0. simpl.
  destruct (Z.geb_spec (ri r) (Z.of_nat (length (rs r)))); [|lia].
  unfold write_back, slice_from. simpl. change (Z.to_nat 0) with 0%nat.
  by rewrite drop_0.
Qed.

Lemma read_whole_leaf (bl p : list byte) :
  bl ≠ [] → (length bl ≤ length p)%nat →
  read (blobLeaf_Reader bl) (frame0 p)
  = ({| rs := bl; ri := Z.of_nat (length bl) |},
     {| fp := bl ++ drop (length bl) p; fn := Z.of_nat (length bl); ferr := None |},
     true).
Proof.
  intros Hne Hlen. unfold read, bytesReader_Read, blobLeaf_Reader, frame0. simpl.
  destruct (Z.geb_spec 0 (Z.of_nat (length bl))) as [H0|_].
  { destruct bl; [done|]. cbn [length] in H0. lia. }
  unfold copy, slice_from, write_back. simpl.
  change (Z.to_nat 0) with 0%nat. rewrite !drop_0.
  rewrite Nat.min_r by lia. by rewrite take_ge by lia.
Qed.

Lemma rangeLeaves_large (L : list (list byte)) (p : list byte) :
  Forall (λ l, length l ≤ length p)%nat L →
  ∀ cur,
    match cur with None => True | Some r => Z.of_nat (length (rs r)) ≤ ri r end →
    match skipEmpty L with
    | [] => ∃ cur', rangeLeaves L cur (frame0 p) = ([], cur', frame0 p, false)
    | bl :: L' =>
        rangeLeaves L cur (frame0 p)
        = (L', Some {| rs := bl; ri := Z.of_nat (length bl) |},
           {| fp := bl ++ drop (length bl) p; fn := Z.of_nat (length bl); ferr := None |},
           true)
    end.
Proof.
  induction 1 as [|l L Hl _ IH]; intros cur Hcur; simpl.
  - by exists cur.
  - destruct l as [|b l].
    + change (read (blobLeaf_Reader []) {| fp := p; fn := 0; ferr := None |})
        with (read (blobLeaf_Reader []) (frame0 p)).
      rewrite read_exhausted by (simpl; lia). apply IH. simpl. lia.
    + change (read (blobLeaf_Reader (b :: l)) {| fp := p; fn := 0; ferr := None |})
        with (read (blobLeaf_Reader (b :: l)) (frame0 p)).
      by rewrite read_whole_leaf.
Qed.

Lemma Read_large (cbr : compoundBlobReader) (L : list (list byte)) (p : list byte) :
  betweenLeaves cbr L →
  Forall (λ l, length l ≤ length p)%nat L →
  match skipEmpty L with
  | [] => ∃ cbr', Read cbr p = (cbr', p, (0, None)) ∧ eof cbr' = true
  | bl :: L' =>
      ∃ cbr', Read cbr p = (cbr', bl ++ drop (length bl) p, (Z.of_nat (length bl), None)) ∧
              betweenLeaves cbr' L' ∧ cb cbr' = cb cbr
  end.
Proof.
  intros (HL & Heof & Hcur) Hall. unfold Read. rewrite Heof, HL.
  cbv beta iota zeta. rewrite HL. cbn [default from_option id].
  change {| fp := p; fn := 0; ferr := None |} with (frame0 p).
  pose proof (rangeLeaves_large L p Hall) as Hrange.
  destruct (curLeaf cbr) as [r|] eqn:Hr.
  - rewrite read_exhausted by done.
    specialize (Hrange (Some r) Hcur).
    destruct (skipEmpty L) as [|bl L'].
    + destruct Hrange as [cur' ->]. eexists. split; [done|]. done.
    + rewrite Hrange. eexists. split; [done|]. split; [|done].
      split; [done|]. split; [done|]. simpl. lia.
  - specialize (Hrange None I).
    destruct (skipEmpty L) as [|bl L'].
    + destruct Hrange as [cur' ->]. eexists. split; [done|]. done.
    + rewrite Hrange. eexists. split; [done|]. split; [|done].
      split; [done|]. split; [done|]. simpl. lia.
Qed.

Lemma skipEmpty_concat (L : list (list byte)) :
  match skipEmpty L with
  | [] => concat L = []
  | bl :: L' => concat L = bl ++ concat L' ∧ (length L' < length L)%nat ∧
                ∀ P : list byte → Prop, Forall P L → Forall P L'
  end.
Proof.
  induction L as [|l L IH]; simpl; [done|].
  destruct l as [|b l]; simpl.
  - destruct (skipEmpty L) as [|bl L']; [done|].
    destruct IH as (-> & Hlen & HP). split; [done|]. split; [lia|].
    intros P HPL. apply HP. by apply Forall_cons in HPL as [_ ?].
  - split; [done|]. split; [lia|]. intros P HPL. by apply Forall_cons in HPL as [_ ?].
Qed.

Lemma readWith_eof (sizes : list nat) (cbr : compoundBlobReader) :
  eof cbr = true →
  fst (fst (readWith cbr sizes)) = [] ∧ snd (readWith cbr sizes) = cbr.
Proof.
  intros Heof. induction sizes as [|sz sizes [IH1 IH2]]; simpl; [done|].
  unfold Read at 1 2. rewrite Heof.
  destruct (readWith cbr sizes) as [[bs ress] cbr'']. simpl in *. by subst.
Qed.

Lemma readWith_large (sizes : list nat) :
  ∀ (cbr : compoundBlobReader) (L : list (list byte)),
    betweenLeaves cbr L →
    Forall (λ sz, Forall (λ l, length l ≤ sz)%nat L) sizes →
    (length L < length sizes)%nat →
    fst (fst (readWith cbr sizes)) = concat L ∧
    eof (snd (readWith cbr sizes)) = true.
Proof.
  induction sizes as [|sz sizes IH]; intros cbr L Hbt Hall Hlen; [simpl in *; lia|].
  apply Forall_cons in Hall as [Hsz Hall].
  assert (Hp : Forall (λ l, length l ≤ length (replicate sz "000"%byte))%nat L)
    by (by rewrite length_replicate).
  pose proof (Read_large cbr L _ Hbt Hp) as HR.
  pose proof (skipEmpty_concat L) as HS.
  cbn [readWith].
  destruct (skipEmpty L) as [|bl L'].
  - destruct HR as (cbr' & -> & Heof').
    destruct (readWith_eof sizes cbr' Heof') as [Hbs Hst].
    destruct (readWith cbr' sizes) as [[bs ress] cbr'']. simpl in *.
    subst. by rewrite HS.
  - destruct HR as (cbr' & -> & Hbt' & _).
    destruct HS as (HS & HlenL & HP).
    destruct (IH cbr' L' Hbt') as [Hbs Heof'].
    { eapply Forall_impl; [exact Hall|]. intros sz' Hsz'. by apply HP. }
    { simpl in Hlen. lia. }
    destruct (readWith cbr' sizes) as [[bs ress] cbr'']. simpl in *.
    rewrite Nat2Z.id, take_app_length. by rewrite Hbs, HS.
Qed.

(** X5. When every buffer is at least as long as every leaf,
    and there are more reads than leaves, the reads on a new reader
    deliver exactly the bytes of the blob, and the reader ends with
    [eof] set. *)
Theorem Read_delivers_with_large_buffers
    (offsets : list Z) (futures : list Blob) (sizes : list nat) :
  Forall (λ sz, Forall (λ l, length l ≤ sz)%nat
                  (leavesInOrder (compoundBlob offsets futures))) sizes →
  (length (leavesInOrder (compoundBlob offsets futures)) < length sizes)%nat →
  fst (fst (readWith (Reader offsets futures) sizes))
  = blobBytes (compoundBlob offsets futures) ∧
  eof (snd (readWith (Reader offsets futures) sizes)) = true.
Proof.
  intros Hall Hlen.
  assert (Heq : readWith (Reader offsets futures) sizes
                = readWith (fst (Seek (Reader offsets futures) 0 0)) sizes).
  { destruct sizes as [|sz sizes]; [simpl in Hlen; lia|]. reflexivity. }
  rewrite Heq. apply readWith_large; [|done|done].
  split; [done|]. split; done.
Qed.

(** X6. On a reader that has not reached the end, [Seek], whatever
    its arguments, starts the blob again: the reads after it, with such
    buffers, deliver all the bytes of the blob. *)
Theorem Seek_rewinds (cbr : compoundBlobReader) (offset whence : Z) (sizes : list nat) :
  eof cbr = false →
  Forall (λ sz, Forall (λ l, length l ≤ sz)%nat (leavesInOrder (cb cbr))) sizes →
  (length (leavesInOrder (cb cbr)) < length sizes)%nat →
  fst (fst (readWith (fst (Seek cbr offset whence)) sizes)) = blobBytes (cb cbr) ∧
  eof (snd (readWith (fst (Seek cbr offset whence)) sizes)) = true.
Proof.
  intros Heof Hall Hlen. apply readWith_large; [|done|done].
  split; [done|]. split; done.
Qed.

Lemma Read_delivers_with_large_buffers_witness :
  let offsets := [4; 6] in
  let futures :=
    [compoundBlob [2; 4] [blobLeaf (bytes_of "ab"); blobLeaf (bytes_of "cd")];
     compoundBlob [2] [blobLeaf (bytes_of "ef")]] in
  let sizes := [3; 2; 4; 3]%nat in
  fst (fst (readWith (Reader offsets futures) sizes))
  = blobBytes (compoundBlob offsets futures) ∧
  eof (snd (readWith (Reader offsets futures) sizes)) = true.
Proof.
  apply (Read_delivers_with_large_buffers [4; 6]
           [compoundBlob [2; 4] [blobLeaf (bytes_of "ab"); blobLeaf (bytes_of "cd")];
            compoundBlob [2] [blobLeaf (bytes_of "ef")]]
           [3; 2; 4; 3]%nat).
  - repeat constructor.
  - simpl. lia.
Defined.

Lemma Seek_rewinds_witness :
  let cbr := fst (fst (Read (Reader [2; 5] [blobLeaf (bytes_of "ab"); blobLeaf (bytes_of "cde")])
                         (replicate 3 "000"%byte))) in
  let sizes := [3; 3; 3]%nat in
  fst (fst (readWith (fst (Seek cbr 7 1)) sizes)) = blobBytes (cb cbr) ∧
  eof (snd (readWith (fst (Seek cbr 7 1)) sizes)) = true.
Proof.
  apply (Seek_rewinds
           (fst (fst (Read (Reader [2; 5] [blobLeaf (bytes_of "ab"); blobLeaf (bytes_of "cde")])
                        (replicate 3 "000"%byte))))
           7 1 [3; 3; 3]%nat).
  - reflexivity.
  - repeat constructor.
  - simpl. lia.
Defined.

(** ** Read and its buffer *)

Lemma copy_spec (dst src : list byte) :
  length (fst (copy dst src)) = length dst ∧
  0 ≤ snd (copy dst src) ≤ Z.of_nat (length dst) ∧
  drop (Z.to_nat (snd (copy dst src))) (fst (copy dst src))
  = drop (Z.to_nat (snd (copy dst src))) dst.
Proof.
  unfold copy. simpl. set (k := Nat.min (length dst) (length src)).
  assert (Hk : length (take k src) = k) by (rewrite length_take; lia).
  split; [|split].
  - rewrite length_app, Hk, length_drop. lia.
  - lia.
  - rewrite Nat2Z.id. rewrite <- Hk at 1. by rewrite drop_app_length.
Qed.

Lemma bytesReader_Read_spec (r : bytesReader) (b : list byte) :
  let '(_, b', n, _) := bytesReader_Read r b in
  length b' = length b ∧ 0 ≤ n ≤ Z.of_nat (length b) ∧
  drop (Z.to_nat n) b' = drop (Z.to_nat n) b.
Proof.
  unfold bytesReader_Read. destruct (ri r >=? _).
  - split; [done|]. split; [lia|done].
  - pose proof (copy_spec b (slice_from (rs r) (ri r))) as H.
    by destruct (copy b _) as [b' n].
Qed.

Lemma read_frameOk (p : list byte) (r : bytesReader) (fr : readFrame) :
  frameOk p fr → frameOk p (snd (fst (read r fr))).
Proof.
  intros (Hlen & Hn & Hdrop). unfold read.
  pose proof (bytesReader_Read_spec r (slice_from (fp fr) (fn fr))) as H.
  destruct (bytesReader_Read r _) as [[[r' tail] l] e].
  destruct H as (Ht & Hl & Hd).
  unfold slice_from in *. rewrite length_drop in *.
  assert (Hfr : frameOk p {| fp := write_back (fp fr) (fn fr) tail;
                             fn := fn fr + l; ferr := ferr fr |}
              ∧ ∀ e', frameOk p {| fp := write_back (fp fr) (fn fr) tail;
                                   fn := fn fr + l; ferr := e' |}).
  { assert (Hgen : ∀ e', frameOk p {| fp := write_back (fp fr) (fn fr) tail;
                                      fn := fn fr + l; ferr := e' |}).
    { intros e'. unfold frameOk, write_back. simpl.
      assert (Htk : length (take (Z.to_nat (fn fr)) (fp fr)) = Z.to_nat (fn fr))
        by (rewrite length_take; lia).
      split; [|split].
      - rewrite length_app, Htk, Ht. lia.
      - lia.
      - replace (Z.to_nat (fn fr + l)) with (Z.to_nat (fn fr) + Z.to_nat l)%nat by lia.
        rewrite <- !drop_drop. rewrite <- Htk at 1. rewrite drop_app_length.
        by rewrite Hd, Hdrop. }
    split; [apply Hgen|exact Hgen]. }
  destruct Hfr as [_ Hgen].
  destruct e as [[| |]|]; simpl; apply Hgen.
Qed.

Lemma rangeLeaves_frameOk (p : list byte) (ls : list (list byte)) :
  ∀ cur fr, frameOk p fr → frameOk p (snd (fst (rangeLeaves ls cur fr))).
Proof.
  induction ls as [|bl ls IH]; intros cur fr Hfr; simpl; [done|].
  pose proof (read_frameOk p (blobLeaf_Reader bl) fr Hfr) as H.
  destruct (read (blobLeaf_Reader bl) fr) as [[r' fr'] exit]. simpl in H.
  destruct exit; [done|]. by apply IH.
Qed.

(** X7. A [Read] returns a count between 0 and
    [len(p)], leaves the length of [p] alone, and leaves the bytes of [p]
    after the count as they were. *)
Theorem Read_stays_in_buffer (cbr : compoundBlobReader) (p : list byte) :
  let '(_, p', (n, _)) := Read cbr p in
  length p' = length p ∧
  0 ≤ n ≤ Z.of_nat (length p) ∧
  drop (Z.to_nat n) p' = drop (Z.to_nat n) p.
Proof.
  unfold Read. destruct (eof cbr); [split; [done|split; [lia|done]]|].
  set (cbr1 := match leaves cbr with None => _ | Some _ => _ end).
  set (fr0 := {| fp := p; fn := 0; ferr := None |}).
  assert (H0 : frameOk p fr0) by (split; [done|split; [simpl; lia|done]]).
  destruct (curLeaf cbr1) as [r|].
  - pose proof (read_frameOk p r fr0 H0) as H1.
    destruct (read r fr0) as [[r1 fr1] exit]. simpl in H1.
    destruct exit; [done|].
    pose proof (rangeLeaves_frameOk p (default [] (leaves cbr1)) (Some r1) fr1 H1) as H2.
    destruct (rangeLeaves _ _ _) as [[[ls' cur'] fr'] ret]. simpl in H2.
    by destruct ret.
  - pose proof (rangeLeaves_frameOk p (default [] (leaves cbr1)) None fr0 H0) as H2.
    destruct (rangeLeaves _ _ _) as [[[ls' cur'] fr'] ret]. simpl in H2.
    by destruct ret.
Qed.

(** ** findBlobOffset at any position *)

(** X8. On strictly increasing offsets and any
    position, also one at or past the total length, [findBlobOffset]
    returns the number of offsets that are not above the position: the
    offsets before the index returned are [<= p], those from it on are
    [> p]; past the end it returns [len(offsets)], the index of no
    child. *)
Theorem findBlobOffset_splits_offsets (O : list Z) (p : Z) :
  strictly_increasing O = true →
  Z.of_nat (length O) < 2 ^ 63 →
  ∃ i : nat,
    findBlobOffset O p = Returns (Z.of_nat i) ∧
    (i ≤ length O)%nat ∧
    (∀ j o, O !! j = Some o → (o ≤ p ↔ (j < i)%nat)) ∧
    (Forall (λ o, o ≤ p) O → i = length O).
Proof.
  intros Hs Hlen. destruct (leading_le_spec O p) as (Hle & Hlow & Hat).
  exists (leading_le O p).
  assert (Hpart : ∀ j o, O !! j = Some o → (o ≤ p ↔ (j < leading_le O p)%nat)).
  { intros j o Hj. pose proof (gt_threshold O p j o Hs Hj) as Hg.
    rewrite Z.gtb_ltb in Hg.
    destruct (Z.ltb_spec p o); destruct (Z.leb_spec (Z.of_nat (leading_le O p)) (Z.of_nat j));
      try done; lia. }
  split; [|split; [done|split; [done|]]].
  - unfold findBlobOffset, Search.
    apply Search_loop_threshold with (n := Z.of_nat (length O)); try lia.
    intros h Hh. replace h with (Z.of_nat (Z.to_nat h)) by lia.
    destruct (lookup_lt_is_Some_2 O (Z.to_nat h)) as [oh Hoh]; [lia|].
    rewrite (index_lookup O (Z.to_nat h) oh Hoh). simpl.
    by rewrite (gt_threshold O p (Z.to_nat h) oh).
  - intros Hall.
    destruct (decide (leading_le O p = length O)) as [|Hne]; [done|].
    destruct (lookup_lt_is_Some_2 O (leading_le O p)) as [o Ho]; [lia|].
    pose proof (Hat o Ho).
    assert (o ≤ p) by (eapply (proj1 (Forall_lookup _ O) Hall); eauto). lia.
Qed.

Lemma findBlobOffset_splits_offsets_witness :
  ∃ i : nat,
    findBlobOffset [2; 5; 6] 6 = Returns (Z.of_nat i) ∧
    (i ≤ length [2; 5; 6])%nat ∧
    (∀ j o, [2; 5; 6] !! j = Some o → (o ≤ 6 ↔ (j < i)%nat)) ∧
    (Forall (λ o, o ≤ 6) [2; 5; 6] → i = length [2; 5; 6]).
Proof.
  apply (findBlobOffset_splits_offsets [2; 5; 6] 6); [reflexivity|reflexivity].
Defined.

(** ** Little-endian integers *)

Lemma Z_of_byte_range (b : byte) : 0 ≤ Z_of_byte b < 256.
Proof.
  unfold Z_of_byte. pose proof (Byte.to_N_bounded b). lia.
Qed.

Lemma Z_of_byte_of_Z (z : Z) : Z_of_byte (byte_of_Z z) = z mod 256.
Proof.
  unfold byte_of_Z, Z_of_byte.
  pose proof (Z.mod_pos_bound z 256 ltac:(lia)) as Hr.
  destruct (Byte.of_N (Z.to_N (z mod 256))) as [b|] eqn:E.
  - apply Byte.to_of_N in E. simpl. rewrite E. lia.
  - apply Byte.of_N_None_iff in E. lia.
Qed.

Lemma length_le_bytes (k : nat) (z : Z) : length (le_bytes k z) = k.
Proof. revert z. induction k as [|k IH]; intros z; simpl; [done|]. by rewrite IH. Qed.

Lemma le_value_le_bytes (k : nat) (z : Z) :
  le_value (le_bytes k z) = z mod 256 ^ Z.of_nat k.
Proof.
  revert z. induction k as [|k IH]; intros z.
  - simpl. by rewrite Z.mod_1_r.
  - cbn [le_bytes le_value]. rewrite IH, Z_of_byte_of_Z.
    rewrite Nat2Z.inj_succ, Z.pow_succ_r by lia.
    rewrite (Z.rem_mul_r z 256 (256 ^ Z.of_nat k)) by lia. lia.
Qed.

Lemma length_put_int64 (z : Z) : length (put_int64 z) = 8%nat.
Proof. apply length_le_bytes. Qed.

Lemma get_put_int64 (z : Z) :
  - 2 ^ 63 ≤ z < 2 ^ 63 → get_int64 (put_int64 z) = z.
Proof.
  intros Hz. unfold get_int64, put_int64. rewrite le_value_le_bytes.
  change (256 ^ Z.of_nat 8) with (2 ^ 64). rewrite Z.mod_mod by lia.
  unfold int64_of_uint64.
  destruct (Z.le_gt_cases 0 z) as [Hpos|Hneg].
  - rewrite Z.mod_small by lia.
    destruct (Z.ltb_spec z (2 ^ 63)); lia.
  - rewrite <- (Z_mod_plus_full z 1). rewrite Z.mod_small by lia.
    destruct (Z.ltb_spec (z + 1 * 2 ^ 64) (2 ^ 63)); lia.
Qed.

Arguments put_int64 : simpl never.
Arguments get_int64 : simpl never.

(** ** Reading a file at an offset *)

Lemma drop_at {A} (pre rest : list A) :
  drop (Z.to_nat (Z.of_nat (length pre))) (pre ++ rest) = rest.
Proof. rewrite Nat2Z.id. by rewrite drop_app_length. Qed.

Lemma osFile_read_at (pre x post : list byte) :
  osFile_read {| fdata := pre ++ x ++ post; fpos := Z.of_nat (length pre) |} (length x)
  = ({| fdata := pre ++ x ++ post; fpos := Z.of_nat (length pre) + Z.of_nat (length x) |},
     Some x).
Proof.
  unfold osFile_read. simpl. rewrite drop_at.
  destruct (decide _) as [_|Hn]; [|exfalso; apply Hn; rewrite length_app; lia].
  by rewrite take_app_length.
Qed.

Lemma osFile_read_int64_at (pre post : list byte) (z : Z) :
  - 2 ^ 63 ≤ z < 2 ^ 63 →
  osFile_read_int64 {| fdata := pre ++ put_int64 z ++ post; fpos := Z.of_nat (length pre) |}
  = ({| fdata := pre ++ put_int64 z ++ post; fpos := Z.of_nat (length pre) + 8 |}, Some z).
Proof.
  intros Hz. unfold osFile_read_int64. cbn [fdata fpos]. rewrite drop_at.
  destruct (decide _) as [_|Hn];
    [|exfalso; apply Hn; rewrite length_app, length_put_int64; lia].
  pose proof (take_app_length (put_int64 z) post) as Ht.
  rewrite length_put_int64 in Ht. by rewrite Ht, get_put_int64.
Qed.

Lemma osFile_Seek_start (f : osFile) (i : Z) :
  osFile_Seek f i 0
  = if i <? 0 then Panics else Returns ({| fdata := fdata f; fpos := i |}, i).
Proof. unfold osFile_Seek. rewrite decide_True by done. by rewrite Z.add_0_l. Qed.

(** ** The index points at records *)

Lemma recordAt_app (data more : list byte) (i : Z) (b : list byte) :
  recordAt data i b → recordAt (data ++ more) i b.
Proof.
  intros (pre & post & -> & ->). exists pre, (post ++ more).
  split; [|done]. by rewrite <- !app_assoc.
Qed.

Lemma recordAt_end (data b more : list byte) :
  recordAt (data ++ put_int64 (Z.of_nat (length b)) ++ b ++ more)
           (Z.of_nat (length data)) b.
Proof. by exists data, more. Qed.

Section index.

Variable sha1 : list byte → Sha1Digest.

Lemma Close_cases (f f' : FileStoreLog.FileStore) (w w' : fileChunkWriter)
    (e : option error) :
  FileStoreLog.Close sha1 f w = Returns (f', w', e) →
  f' = f ∨
  ∃ b, buffer w = Some b ∧
       FileStoreLog.rm f !! sha1 (hash w) = None ∧
       FileStoreLog.rootFile f' = FileStoreLog.rootFile f ∧
       fdata (FileStoreLog.chunkFile f')
       = fdata (FileStoreLog.chunkFile f) ++ put_int64 (Z.of_nat (length b)) ++ b ∧
       fdata (FileStoreLog.refMapFile f')
       = fdata (FileStoreLog.refMapFile f)
         ++ refMapEntry (sha1 (hash w), Z.of_nat (length (fdata (FileStoreLog.chunkFile f)))) ∧
       FileStoreLog.rm f'
       = <[sha1 (hash w) := Z.of_nat (length (fdata (FileStoreLog.chunkFile f)))]>
           (FileStoreLog.rm f).
Proof.
  unfold FileStoreLog.Close.
  destruct (buffer w) as [b|] eqn:Hb; [|intros [= <- _ _]; by left].
  simpl. destruct (FileStoreLog.rm f !! sha1 (hash w)) as [i|] eqn:Hi;
    [intros [= <- _ _]; by left|].
  rewrite osFile_Seek_end. simpl. rewrite decide_True by done.
  intros [= <- _ _]. right. exists b. simpl.
  split; [done|]. split; [done|]. split; [done|].
  split; [by rewrite <- app_assoc|]. split; [|done].
  unfold refMapEntry. simpl. by rewrite <- app_assoc.
Qed.

Lemma UpdateRoot_keeps (f f' : FileStoreLog.FileStore) (current last : Ref) (b : bool) :
  FileStoreLog.UpdateRoot f current last = Returns (f', b) →
  FileStoreLog.chunkFile f' = FileStoreLog.chunkFile f ∧
  FileStoreLog.refMapFile f' = FileStoreLog.refMapFile f ∧
  FileStoreLog.rm f' = FileStoreLog.rm f.
Proof.
  unfold FileStoreLog.UpdateRoot.
  destruct (readRef _) as [existing| |]; simpl; [|done..].
  by destruct (decide (existing ≠ last)); intros [= <- <-].
Qed.

Lemma Get_keeps (f f' : FileStoreLog.FileStore) (r : Ref) (lr : option limitReader)
    (e : option error) :
  FileStoreLog.Get f r = Returns (f', lr, e) →
  FileStoreLog.rootFile f' = FileStoreLog.rootFile f ∧
  fdata (FileStoreLog.chunkFile f') = fdata (FileStoreLog.chunkFile f) ∧
  FileStoreLog.refMapFile f' = FileStoreLog.refMapFile f ∧
  FileStoreLog.rm f' = FileStoreLog.rm f.
Proof.
  unfold FileStoreLog.Get.
  destruct (FileStoreLog.rm f !! Digest r) as [i|]; [|by intros [= <- _ _]].
  rewrite osFile_Seek_start.
  destruct (i <? 0); simpl; [done|].
  unfold osFile_read_int64. simpl.
  by destruct (decide _); intros [= <- _ _].
Qed.

Lemma storeStep_indexOk (f f' : FileStoreLog.FileStore) :
  storeStep sha1 f f' → indexOk sha1 f → indexOk sha1 f'.
Proof.
  intros [f0 w f1 w' e Hw Hc|f0 cur last f1 b Hv Hu|f0 r f1 lr e Hg] Hok.
  - apply Close_cases in Hc as [->|(b & Hb & Hnew & _ & Hdata & _ & Hrm)]; [done|].
    intros d i. rewrite Hrm, Hdata.
    destruct (decide (sha1 (hash w) = d)) as [<-|Hne].
    + rewrite lookup_insert_eq. intros [= <-]. exists b. split.
      * by rewrite (Hw b Hb).
      * pose proof (recordAt_end (fdata (FileStoreLog.chunkFile f0)) b []) as Hr.
        by rewrite app_nil_r in Hr.
    + rewrite lookup_insert_ne by done. intros Hi.
      destruct (Hok d i Hi) as (b' & Hh & Hr). exists b'. split; [done|].
      by apply recordAt_app.
  - apply UpdateRoot_keeps in Hu as (Hc & _ & Hrm).
    intros d i. rewrite Hrm, Hc. apply Hok.
  - apply Get_keeps in Hg as (_ & Hc & _ & Hrm).
    intros d i. rewrite Hrm, Hc. apply Hok.
Qed.

Lemma NewFileStore_indexOk : indexOk sha1 FileStoreLog.NewFileStore.
Proof. intros d i. simpl. by rewrite lookup_empty. Qed.

Lemma reachable_indexOk (f : FileStoreLog.FileStore) :
  rtc (storeStep sha1) FileStoreLog.NewFileStore f → indexOk sha1 f.
Proof.
  intros Hr. apply rtc_ind_r with (x := FileStoreLog.NewFileStore)
                                  (P := indexOk sha1) in Hr; [done| |].
  - apply NewFileStore_indexOk.
  - intros y z _ Hs IH. by eapply storeStep_indexOk.
Qed.

Opaque put_int64.

(** What [Get] does when the index entry points at a record. *)
Lemma Get_record (f : FileStoreLog.FileStore) (r : Ref) (i : Z) (b : list byte) :
  FileStoreLog.rm f !! Digest r = Some i →
  Z.of_nat (length (fdata (FileStoreLog.chunkFile f))) < 2 ^ 63 →
  recordAt (fdata (FileStoreLog.chunkFile f)) i b →
  ∃ f',
    FileStoreLog.Get f r = Returns (f', Some {| limit := Z.of_nat (length b) |}, None) ∧
    snd (limitReader_ReadAll (FileStoreLog.chunkFile f')
           {| limit := Z.of_nat (length b) |}) = b ∧
    fdata (FileStoreLog.chunkFile f') = fdata (FileStoreLog.chunkFile f) ∧
    FileStoreLog.rm f' = FileStoreLog.rm f ∧
    FileStoreLog.rootFile f' = FileStoreLog.rootFile f.
Proof.
  intros Hi Hsize (pre & post & Hdata & ->).
  unfold FileStoreLog.Get. rewrite Hi.
  rewrite osFile_Seek_start.
  destruct (Z.ltb_spec (Z.of_nat (length pre)) 0) as [?|_]; [lia|]. cbn [obind fst].
  rewrite Hdata in *.
  rewrite osFile_read_int64_at.
  2:{ rewrite !length_app in Hsize. lia. }
  simpl. eexists. split; [done|].
  split; [|done].
  unfold limitReader_ReadAll. simpl.
  replace (Z.of_nat (length pre) + 8)
    with (Z.of_nat (length (pre ++ put_int64 (Z.of_nat (length b))))).
  2:{ rewrite length_app, length_put_int64. lia. }
  rewrite (app_assoc pre). rewrite drop_at. rewrite Nat2Z.id.
  by rewrite take_app_length.
Qed.

Lemma Get_indexed (f : FileStoreLog.FileStore) (r : Ref) (i : Z) :
  indexOk sha1 f →
  Z.of_nat (length (fdata (FileStoreLog.chunkFile f))) < 2 ^ 63 →
  FileStoreLog.rm f !! Digest r = Some i →
  ∃ f' b,
    FileStoreLog.Get f r = Returns (f', Some {| limit := Z.of_nat (length b) |}, None) ∧
    snd (limitReader_ReadAll (FileStoreLog.chunkFile f')
           {| limit := Z.of_nat (length b) |}) = b ∧
    sha1 b = Digest r ∧
    fdata (FileStoreLog.chunkFile f') = fdata (FileStoreLog.chunkFile f) ∧
    FileStoreLog.rm f' = FileStoreLog.rm f ∧
    FileStoreLog.rootFile f' = FileStoreLog.rootFile f.
Proof.
  intros Hok Hsize Hi. destruct (Hok _ _ Hi) as (b & Hh & Hrec).
  destruct (Get_record f r i b Hi Hsize Hrec) as (f' & ? & ? & ?).
  by exists f', b.
Qed.

Transparent put_int64.

End index.

(** ** The store only grows *)

Section growth.

Variable sha1 : list byte → Sha1Digest.

Lemma storeStep_grows (f f' : FileStoreLog.FileStore) :
  storeStep sha1 f f' →
  fdata (FileStoreLog.chunkFile f) `prefix_of` fdata (FileStoreLog.chunkFile f') ∧
  fdata (FileStoreLog.refMapFile f) `prefix_of` fdata (FileStoreLog.refMapFile f') ∧
  FileStoreLog.rm f ⊆ FileStoreLog.rm f'.
Proof.
  intros [f0 w f1 w' e Hw Hc|f0 cur last f1 b Hv Hu|f0 r f1 lr e Hg].
  - apply Close_cases in Hc as [->|(b & Hb & Hnew & _ & Hdata & Hlog & Hrm)]; [done|].
    rewrite Hdata, Hlog, Hrm. split; [by eexists|]. split; [by eexists|].
    by apply insert_subseteq.
  - apply UpdateRoot_keeps in Hu as (-> & -> & ->). done.
  - apply Get_keeps in Hg as (_ & -> & -> & ->). done.
Qed.

Lemma storeSteps_grow (f f' : FileStoreLog.FileStore) :
  rtc (storeStep sha1) f f' →
  fdata (FileStoreLog.chunkFile f) `prefix_of` fdata (FileStoreLog.chunkFile f') ∧
  fdata (FileStoreLog.refMapFile f) `prefix_of` fdata (FileStoreLog.refMapFile f') ∧
  FileStoreLog.rm f ⊆ FileStoreLog.rm f'.
Proof.
  induction 1 as [|f1 f2 f3 H12 _ (IHc & IHl & IHm)]; [done|].
  apply storeStep_grows in H12 as (Hc & Hl & Hm).
  split; [by etrans|]. split; [by etrans|]. by etrans.
Qed.

End growth.

(** ** The refMap log *)

Lemma refMapEntry_length (e : Sha1Digest * Z) :
  length (fst e) = 20%nat → length (refMapEntry e) = 28%nat.
Proof. intros H. unfold refMapEntry. rewrite length_app, length_put_int64. lia. Qed.

Lemma refMap_entries_length (entries : list (Sha1Digest * Z)) :
  Forall (λ e, length (fst e) = 20%nat ∧ 0 ≤ snd e < 2 ^ 63) entries →
  (length entries ≤ length (concat (map refMapEntry entries)))%nat.
Proof.
  induction 1 as [|e entries [He _] _ IH]; [done|].
  simpl. rewrite length_app, (refMapEntry_length e He). lia.
Qed.

Lemma readRefMap_loop_entries (entries : list (Sha1Digest * Z)) :
  Forall (λ e, length (fst e) = 20%nat ∧ 0 ≤ snd e < 2 ^ 63) entries →
  ∀ (fuel : nat) (pre : list byte) (m : gmap Sha1Digest Z),
    (length entries < fuel)%nat →
    ∃ rmf',
      FileStoreLog.readRefMap_loop fuel
        {| fdata := pre ++ concat (map refMapEntry entries);
           fpos := Z.of_nat (length pre) |} m
      = Returns (rmf', foldl (λ m e, <[fst e := snd e]> m) m entries) ∧
      fdata rmf' = pre ++ concat (map refMapEntry entries).
Proof.
  induction 1 as [|[d i] entries [Hd Hi] _ IH]; intros fuel pre m Hfuel;
    (destruct fuel as [|fuel]; [lia|]); simpl in *.
  - unfold osFile_read. simpl. rewrite app_nil_r, Nat2Z.id, drop_all. simpl.
    eexists. split; [done|]. done.
  - unfold refMapEntry at 1. simpl. rewrite <- (app_assoc d).
    rewrite <- Hd. rewrite osFile_read_at.
    replace (Z.of_nat (length pre) + Z.of_nat (length d))
      with (Z.of_nat (length (pre ++ d))) by (rewrite length_app; lia).
    rewrite (app_assoc pre d). rewrite osFile_read_int64_at by lia.
    replace (Z.of_nat (length (pre ++ d)) + 8)
      with (Z.of_nat (length ((pre ++ d) ++ put_int64 i)))
      by (rewrite (length_app _ (put_int64 i)), length_put_int64; lia).
    rewrite (app_assoc (pre ++ d)).
    destruct (IH fuel ((pre ++ d) ++ put_int64 i) (<[d := i]> m) ltac:(lia))
      as (rmf' & Hrun & Hdata).
    exists rmf'. split; [done|]. rewrite Hdata. unfold refMapEntry. simpl.
    by rewrite <- !app_assoc.
Qed.

Section log.

Variable sha1 : list byte → Sha1Digest.
Hypothesis sha1_length : ∀ b, length (sha1 b) = 20%nat.

Lemma storeStep_refMapOk (f f' : FileStoreLog.FileStore) :
  storeStep sha1 f f' →
  Z.of_nat (length (fdata (FileStoreLog.chunkFile f))) < 2 ^ 63 →
  refMapOk f → refMapOk f'.
Proof.
  intros [f0 w f1 w' e Hw Hc|f0 cur last f1 b Hv Hu|f0 r f1 lr e Hg] Hsize
    (entries & Hlog & Hrm & Hall).
  - apply Close_cases in Hc as [->|(b & Hb & Hnew & _ & _ & Hlog' & Hrm')];
      [by exists entries|].
    exists (entries ++ [(sha1 (hash w),
                         Z.of_nat (length (fdata (FileStoreLog.chunkFile f0))))]).
    split; [|split].
    + rewrite Hlog', Hlog, map_app, concat_app. simpl. by rewrite app_nil_r.
    + rewrite Hrm', Hrm, foldl_app. done.
    + apply Forall_app. split; [done|]. constructor; [|done]. simpl.
      split; [apply sha1_length|lia].
  - apply UpdateRoot_keeps in Hu as (_ & Hl & Hm). exists entries.
    by rewrite Hl, Hm.
  - apply Get_keeps in Hg as (_ & _ & Hl & Hm). exists entries.
    by rewrite Hl, Hm.
Qed.

Lemma reachable_refMapOk (f : FileStoreLog.FileStore) :
  rtc (storeStep sha1) FileStoreLog.NewFileStore f →
  Z.of_nat (length (fdata (FileStoreLog.chunkFile f))) < 2 ^ 63 →
  refMapOk f.
Proof.
  intros Hr.
  apply rtc_ind_r with
    (x := FileStoreLog.NewFileStore)
    (P := λ f, Z.of_nat (length (fdata (FileStoreLog.chunkFile f))) < 2 ^ 63 → refMapOk f)
    in Hr; [done| |].
  - intros _. by exists [].
  - intros y z _ Hs IH Hsize.
    pose proof (storeStep_grows sha1 _ _ Hs) as ([k Hk] & _ & _).
    assert (Z.of_nat (length (fdata (FileStoreLog.chunkFile y))) < 2 ^ 63)
      by (rewrite Hk, length_app in Hsize; lia).
    eapply storeStep_refMapOk; eauto.
Qed.

Lemma NewFileStoreOn_refMapOk (f : FileStoreLog.FileStore) :
  refMapOk f →
  ∃ f0,
    FileStoreLog.NewFileStoreOn (FileStoreLog.rootFile f)
      (fdata (FileStoreLog.chunkFile f)) (fdata (FileStoreLog.refMapFile f))
    = Returns f0 ∧
    FileStoreLog.rm f0 = FileStoreLog.rm f ∧
    FileStoreLog.rootFile f0 = FileStoreLog.rootFile f ∧
    fdata (FileStoreLog.chunkFile f0) = fdata (FileStoreLog.chunkFile f) ∧
    fdata (FileStoreLog.refMapFile f0) = fdata (FileStoreLog.refMapFile f).
Proof.
  intros (entries & Hlog & Hrm & Hall).
  unfold FileStoreLog.NewFileStoreOn, FileStoreLog.readRefMap. cbn [FileStoreLog.refMapFile
    FileStoreLog.rm FileStoreLog.rootFile FileStoreLog.chunkFile FileStoreLog.trace fdata].
  rewrite Hlog.
  destruct (readRefMap_loop_entries entries Hall
              (S (length (concat (map refMapEntry entries)))) [] ∅)
    as (rmf' & Hrun & Hdata).
  { pose proof (refMap_entries_length entries Hall). lia. }
  change ([] ++ concat (map refMapEntry entries))
    with (concat (map refMapEntry entries)) in *.
  change (Z.of_nat (length (@nil byte))) with 0 in Hrun.
  rewrite Hrun. simpl.
  eexists. split; [done|]. simpl. by rewrite Hrm, Hdata.
Qed.

End log.

(** ** What the store gives back *)

Lemma storeX_reachable : rtc (storeStep pad20) FileStoreLog.NewFileStore storeX.
Proof.
  eapply rtc_l; [|apply rtc_refl].
  apply (step_Close pad20 FileStoreLog.NewFileStore
           {| buffer := Some (bytes_of "x"); hash := bytes_of "x" |}
           storeX {| buffer := None; hash := bytes_of "x" |} None).
  - intros b [= <-]. done.
  - reflexivity.
Qed.

Lemma pad20_length (b : list byte) : length (pad20 b) = 20%nat.
Proof.
  unfold pad20. rewrite length_take, length_app, length_replicate. lia.
Qed.

(** X9. On a store built from an empty one by
    [Close], [UpdateRoot] and [Get], with a chunks file shorter than 2^63
    bytes: [Get] of an indexed Ref returns a reader, limited to the length
    of a chunk, that delivers bytes whose hash is the digest of the Ref. *)
Theorem Get_returns_hashed_bytes (sha1 : list byte → Sha1Digest)
    (f : FileStoreLog.FileStore) (r : Ref) (i : Z) :
  rtc (storeStep sha1) FileStoreLog.NewFileStore f →
  Z.of_nat (length (fdata (FileStoreLog.chunkFile f))) < 2 ^ 63 →
  FileStoreLog.rm f !! Digest r = Some i →
  ∃ f' b,
    FileStoreLog.Get f r = Returns (f', Some {| limit := Z.of_nat (length b) |}, None) ∧
    snd (limitReader_ReadAll (FileStoreLog.chunkFile f')
           {| limit := Z.of_nat (length b) |}) = b ∧
    sha1 b = Digest r.
Proof.
  intros Hr Hsize Hi.
  destruct (Get_indexed sha1 f r i (reachable_indexOk sha1 f Hr) Hsize Hi)
    as (f' & b & HG & Hread & Hh & _).
  by exists f', b.
Qed.

Lemma Get_returns_hashed_bytes_witness :
  ∃ f' b,
    FileStoreLog.Get storeX (mkRef (pad20 (bytes_of "x")))
    = Returns (f', Some {| limit := Z.of_nat (length b) |}, None) ∧
    snd (limitReader_ReadAll (FileStoreLog.chunkFile f')
           {| limit := Z.of_nat (length b) |}) = b ∧
    pad20 b = Digest (mkRef (pad20 (bytes_of "x"))).
Proof.
  apply (Get_returns_hashed_bytes pad20 storeX (mkRef (pad20 (bytes_of "x"))) 0).
  - exact storeX_reachable.
  - reflexivity.
  - reflexivity.
Defined.

(** X10. A chunk whose hash the index does not hold yet is
    stored by the writer's [Ref()], and [Get] of the Ref returned then
    gives a reader that delivers exactly the bytes written. *)
Theorem Put_then_Get (sha1 : list byte → Sha1Digest)
    (f : FileStoreLog.FileStore) (b : list byte) :
  FileStoreLog.rm f !! sha1 b = None →
  Z.of_nat (length (fdata (FileStoreLog.chunkFile f))) + 8 + Z.of_nat (length b) < 2 ^ 63 →
  ∃ f1 w f2,
    FileStoreLog.writeChunk sha1 f b = Returns (f1, w, mkRef (sha1 b)) ∧
    FileStoreLog.Get f1 (mkRef (sha1 b))
    = Returns (f2, Some {| limit := Z.of_nat (length b) |}, None) ∧
    snd (limitReader_ReadAll (FileStoreLog.chunkFile f2)
           {| limit := Z.of_nat (length b) |}) = b.
Proof.
  intros Hnew Hsize.
  destruct (writeChunk_log sha1 f b) as (f1 & w & Hw & _ & Hfresh).
  destruct (Hfresh Hnew) as [Hdata Hrm].
  assert (Hrec : recordAt (fdata (FileStoreLog.chunkFile f1))
                   (Z.of_nat (length (fdata (FileStoreLog.chunkFile f)))) b).
  { rewrite Hdata. unfold chunk_record.
    pose proof (recordAt_end (fdata (FileStoreLog.chunkFile f)) b []) as Hr.
    by rewrite app_nil_r in Hr. }
  destruct (Get_record f1 (mkRef (sha1 b))
              (Z.of_nat (length (fdata (FileStoreLog.chunkFile f)))) b)
    as (f2 & HG & Hread & _); [| |done|].
  - rewrite Hrm. simpl. by rewrite lookup_insert_eq.
  - rewrite Hdata. unfold chunk_record.
    rewrite !length_app, length_put_int64. lia.
  - by exists f1, w, f2.
Qed.

Lemma Put_then_Get_witness :
  ∃ f1 w f2,
    FileStoreLog.writeChunk pad20 FileStoreLog.NewFileStore (bytes_of "x")
    = Returns (f1, w, mkRef (pad20 (bytes_of "x"))) ∧
    FileStoreLog.Get f1 (mkRef (pad20 (bytes_of "x")))
    = Returns (f2, Some {| limit := Z.of_nat (length (bytes_of "x")) |}, None) ∧
    snd (limitReader_ReadAll (FileStoreLog.chunkFile f2)
           {| limit := Z.of_nat (length (bytes_of "x")) |}) = bytes_of "x".
Proof.
  apply (Put_then_Get pad20 FileStoreLog.NewFileStore (bytes_of "x")).
  - reflexivity.
  - reflexivity.
Defined.

(** X11. Calls on the store never change or drop what is there:
    the chunks file and the refMap log keep their bytes as a prefix, and
    the index keeps its entries. *)
Theorem store_only_grows (sha1 : list byte → Sha1Digest)
    (f f' : FileStoreLog.FileStore) :
  rtc (storeStep sha1) f f' →
  fdata (FileStoreLog.chunkFile f) `prefix_of` fdata (FileStoreLog.chunkFile f') ∧
  fdata (FileStoreLog.refMapFile f) `prefix_of` fdata (FileStoreLog.refMapFile f') ∧
  FileStoreLog.rm f ⊆ FileStoreLog.rm f'.
Proof. apply storeSteps_grow. Qed.

Lemma store_only_grows_witness :
  fdata (FileStoreLog.chunkFile FileStoreLog.NewFileStore)
    `prefix_of` fdata (FileStoreLog.chunkFile storeX) ∧
  fdata (FileStoreLog.refMapFile FileStoreLog.NewFileStore)
    `prefix_of` fdata (FileStoreLog.refMapFile storeX) ∧
  FileStoreLog.rm FileStoreLog.NewFileStore ⊆ FileStoreLog.rm storeX.
Proof.
  apply (store_only_grows pad20 FileStoreLog.NewFileStore storeX).
  exact storeX_reachable.
Defined.

(** X12. The refMap log that the calls on a store have written
    replays, in [NewFileStore], to the index the store had: the store
    opened again on the same files has the same index, root file and
    chunks. *)
Theorem reopen_rebuilds_index (sha1 : list byte → Sha1Digest)
    (f : FileStoreLog.FileStore) :
  (∀ b, length (sha1 b) = 20%nat) →
  rtc (storeStep sha1) FileStoreLog.NewFileStore f →
  Z.of_nat (length (fdata (FileStoreLog.chunkFile f))) < 2 ^ 63 →
  ∃ f0,
    FileStoreLog.NewFileStoreOn (FileStoreLog.rootFile f)
      (fdata (FileStoreLog.chunkFile f)) (fdata (FileStoreLog.refMapFile f))
    = Returns f0 ∧
    FileStoreLog.rm f0 = FileStoreLog.rm f ∧
    FileStoreLog.rootFile f0 = FileStoreLog.rootFile f ∧
    fdata (FileStoreLog.chunkFile f0) = fdata (FileStoreLog.chunkFile f) ∧
    fdata (FileStoreLog.refMapFile f0) = fdata (FileStoreLog.refMapFile f).
Proof.
  intros Hlen Hr Hsize. apply NewFileStoreOn_refMapOk.
  by apply (reachable_refMapOk sha1 Hlen).
Qed.

Lemma reopen_rebuilds_index_witness :
  ∃ f0,
    FileStoreLog.NewFileStoreOn (FileStoreLog.rootFile storeX)
      (fdata (FileStoreLog.chunkFile storeX)) (fdata (FileStoreLog.refMapFile storeX))
    = Returns f0 ∧
    FileStoreLog.rm f0 = FileStoreLog.rm storeX ∧
    FileStoreLog.rootFile f0 = FileStoreLog.rootFile storeX ∧
    fdata (FileStoreLog.chunkFile f0) = fdata (FileStoreLog.chunkFile storeX) ∧
    fdata (FileStoreLog.refMapFile f0) = fdata (FileStoreLog.refMapFile storeX).
Proof.
  apply (reopen_rebuilds_index pad20 storeX).
  - exact pad20_length.
  - exact storeX_reachable.
  - reflexivity.
Defined.

(** ** Writers *)

Lemma writeAll_open (pieces : list (list byte)) :
  ∀ (w : fileChunkWriter) (b0 : list byte),
    buffer w = Some b0 →
    FileStoreLog.writeAll w pieces
    = Returns {| buffer := Some (b0 ++ concat pieces);
                 hash := hash w ++ concat pieces |}.
Proof.
  induction pieces as [|p pieces IH]; intros [buf h] b0 Hb; simpl in *.
  - subst buf. by rewrite !app_nil_r.
  - unfold FileStoreLog.Write. simpl. rewrite Hb. simpl.
    rewrite (IH _ (b0 ++ p)) by done. simpl. by rewrite <- !app_assoc.
Qed.

(** X13. However a caller cuts a chunk into [Write]s, the
    writer ends up as after one [Write] of the whole: buffer and hash
    hold the concatenation, so [Ref()] and the record stored are the
    same. *)
Theorem Write_accumulates (f : FileStoreLog.FileStore) (pieces : list (list byte)) :
  ∃ w,
    FileStoreLog.writeAll (FileStoreLog.Put f) pieces = Returns w ∧
    FileStoreLog.writeAll (FileStoreLog.Put f) [concat pieces] = Returns w ∧
    buffer w = Some (concat pieces) ∧
    hash w = concat pieces ∧
    writerOk w.
Proof.
  eexists. split; [by apply (writeAll_open pieces _ [])|].
  split; [|split; [done|split; [done|]]].
  - rewrite (writeAll_open [concat pieces] _ []) by done. simpl.
    by rewrite app_nil_r.
  - intros b. simpl. by intros [= <-].
Qed.

(** ** The index in the key-value store *)

Lemma take_put_int64 (z : Z) : take 8 (put_int64 z) = put_int64 z.
Proof. apply take_ge. by rewrite length_put_int64. Qed.

(** X14. After [putIndex(ref, i)], [getIndex(ref)] returns
    [i] and no error, and [getIndex] of a Ref with another digest returns
    what it returned before. *)
Theorem putIndex_then_getIndex (f f' : FileStoreDB.FileStore) (r : Ref) (i : Z) :
  - 2 ^ 63 ≤ i < 2 ^ 63 →
  FileStoreDB.putIndex f r i = Returns f' →
  FileStoreDB.getIndex f' r = Returns (i, None) ∧
  ∀ r', Digest r' ≠ Digest r → FileStoreDB.getIndex f' r' = FileStoreDB.getIndex f r'.
Proof.
  intros Hi. unfold FileStoreDB.putIndex, FileStoreDB.getIndex, FileStoreDB.getIndexWith,
    FileStoreDB.db_Get.
  destruct (FileStoreDB.db f) as [m|] eqn:Hm; [|done].
  intros [= <-]. simpl. split.
  - rewrite lookup_insert_eq.
    rewrite decide_True by (rewrite length_put_int64; lia).
    by rewrite take_put_int64, get_put_int64.
  - intros r' Hne. by rewrite lookup_insert_ne.
Qed.

Lemma putIndex_then_getIndex_witness :
  ∃ f',
    FileStoreDB.putIndex FileStoreDB.NewFileStore refA 5 = Returns f' ∧
    FileStoreDB.getIndex f' refA = Returns (5, None) ∧
    ∀ r', Digest r' ≠ Digest refA →
          FileStoreDB.getIndex f' r' = FileStoreDB.getIndex FileStoreDB.NewFileStore r'.
Proof.
  eexists. split; [reflexivity|].
  apply (putIndex_then_getIndex FileStoreDB.NewFileStore _ refA 5).
  - split; [discriminate|reflexivity].
  - reflexivity.
Defined.

Opaque put_int64.

(** X15. With the index in the key-value store too, a chunk whose
    hash the index does not hold yet is stored by the writer's [Ref()],
    and [Get] of the Ref returned gives a reader that delivers exactly
    the bytes written. *)
Theorem Put_then_Get_db (sha1 : list byte → Sha1Digest)
    (f : FileStoreDB.FileStore) (m : gmap (list byte) (list byte)) (b : list byte) :
  FileStoreDB.db f = Some m →
  m !! sha1 b = None →
  Z.of_nat (length (fdata (FileStoreDB.chunkFile f))) + 8 + Z.of_nat (length b) < 2 ^ 63 →
  ∃ f1 w f2,
    FileStoreDB.writeChunk sha1 f b = Returns (f1, w, mkRef (sha1 b)) ∧
    FileStoreDB.Get f1 (mkRef (sha1 b))
    = Returns (f2, Some {| limit := Z.of_nat (length b) |}, None) ∧
    snd (limitReader_ReadAll (FileStoreDB.chunkFile f2)
           {| limit := Z.of_nat (length b) |}) = b.
Proof.
  intros Hm Hnew Hsize.
  destruct (writeChunk_db sha1 f m b Hm) as (f1 & w & Hw & _ & Hfresh).
  destruct (Hfresh Hnew) as [Hdata Hdb].
  exists f1, w.
  unfold FileStoreDB.Get, FileStoreDB.GetWith, FileStoreDB.getIndex,
      FileStoreDB.getIndexWith, FileStoreDB.db_Get. rewrite Hdb. simpl.
  rewrite lookup_insert_eq.
  rewrite decide_True by (rewrite length_put_int64; lia).
  rewrite take_put_int64, get_put_int64 by lia. cbn [obind].
  rewrite osFile_Seek_start.
  destruct (Z.ltb_spec (Z.of_nat (length (fdata (FileStoreDB.chunkFile f)))) 0) as [?|_];
    [lia|]. cbn [obind fst].
  rewrite Hdata. unfold chunk_record.
  pose proof (osFile_read_int64_at (fdata (FileStoreDB.chunkFile f)) b
                (Z.of_nat (length b)) ltac:(lia)) as Hrd.
  rewrite Hrd. eexists. split; [done|]. split; [done|].
  unfold limitReader_ReadAll. simpl.
  replace (Z.of_nat (length (fdata (FileStoreDB.chunkFile f))) + 8)
    with (Z.of_nat (length (fdata (FileStoreDB.chunkFile f)
                            ++ put_int64 (Z.of_nat (length b))))).
  2:{ rewrite length_app, length_put_int64. lia. }
  rewrite (app_assoc (fdata (FileStoreDB.chunkFile f))).
  rewrite drop_at, Nat2Z.id. apply take_ge. done.
Qed.

Transparent put_int64.

Lemma Put_then_Get_db_witness :
  ∃ f1 w f2,
    FileStoreDB.writeChunk pad20 FileStoreDB.NewFileStore (bytes_of "x")
    = Returns (f1, w, mkRef (pad20 (bytes_of "x"))) ∧
    FileStoreDB.Get f1 (mkRef (pad20 (bytes_of "x")))
    = Returns (f2, Some {| limit := Z.of_nat (length (bytes_of "x")) |}, None) ∧
    snd (limitReader_ReadAll (FileStoreDB.chunkFile f2)
           {| limit := Z.of_nat (length (bytes_of "x")) |}) = bytes_of "x".
Proof.
  apply (Put_then_Get_db pad20 FileStoreDB.NewFileStore ∅ (bytes_of "x")).
  - reflexivity.
  - reflexivity.
  - reflexivity.
Defined.

(** ** The root file stays readable *)

Lemma storeStep_root_ok (sha1 : list byte → Sha1Digest) (f f' : FileStoreLog.FileStore) :
  storeStep sha1 f f' →
  root_ok (FileStoreLog.rootFile f) → root_ok (FileStoreLog.rootFile f').
Proof.
  intros [f0 w f1 w' e Hw Hc|f0 cur last f1 b Hv Hu|f0 r f1 lr e Hg] Hok.
  - apply Close_cases in Hc as [->|(b & _ & _ & -> & _)]; done.
  - by eapply UpdateRoot_root_ok_log.
  - apply Get_keeps in Hg as (-> & _). done.
Qed.

(** X16. On a store built from an empty one by [Close],
    [UpdateRoot] and [Get], the root file is missing, empty or holds a
    printed Ref, so [Root()] returns a Ref and does not panic in
    [MustParse]. *)
Theorem Root_always_returns (sha1 : list byte → Sha1Digest) (f : FileStoreLog.FileStore) :
  rtc (storeStep sha1) FileStoreLog.NewFileStore f →
  ∃ r, FileStoreLog.Root f = Returns r.
Proof.
  intros Hr. rewrite Root_readRef_log. apply readRef_root_ok.
  apply rtc_ind_r with (x := FileStoreLog.NewFileStore)
                       (P := λ f, root_ok (FileStoreLog.rootFile f)) in Hr; [done| |].
  - by left.
  - intros y z _ Hs IH. by eapply storeStep_root_ok.
Qed.

Lemma Root_always_returns_witness :
  ∃ r, FileStoreLog.Root storeX = Returns r.
Proof.
  apply (Root_always_returns pad20 storeX). exact storeX_reachable.
Defined.

(** ** A record cut short *)

Lemma osFile_read_int64_short (data : list byte) (i : Z) :
  0 ≤ i → Z.of_nat (length data) < i + 8 →
  snd (osFile_read_int64 {| fdata := data; fpos := i |}) = None.
Proof.
  intros Hi Hshort. unfold osFile_read_int64. simpl.
  destruct (decide _) as [Hge|]; [|done].
  rewrite length_drop in Hge. lia.
Qed.

(** X17. When the index points less than 8 bytes
    before the end of the chunks file, so that the length of the record
    cannot be read: the store with the refMap log drops the error and
    [Get] returns a reader of no bytes; the store with the key-value
    index panics. *)
Theorem Get_of_truncated_record
    (fl : FileStoreLog.FileStore) (fd : FileStoreDB.FileStore)
    (m : gmap (list byte) (list byte)) (r : Ref) (i : Z) :
  0 ≤ i < 2 ^ 63 →
  FileStoreLog.rm fl !! Digest r = Some i →
  Z.of_nat (length (fdata (FileStoreLog.chunkFile fl))) < i + 8 →
  FileStoreDB.db fd = Some m →
  m !! Digest r = Some (put_int64 i) →
  Z.of_nat (length (fdata (FileStoreDB.chunkFile fd))) < i + 8 →
  (∃ fl', FileStoreLog.Get fl r = Returns (fl', Some {| limit := 0 |}, None)) ∧
  FileStoreDB.Get fd r = Panics.
Proof.
  intros Hi Hl Hls Hdb Hd Hds. split.
  - unfold FileStoreLog.Get. rewrite Hl, osFile_Seek_start.
    destruct (Z.ltb_spec i 0); [lia|]. cbn [obind fst].
    pose proof (osFile_read_int64_short _ i ltac:(lia) Hls) as Hrd.
    destruct (osFile_read_int64 _) as [cf l]. simpl in Hrd. subst l.
    by eexists.
  - unfold FileStoreDB.Get, FileStoreDB.GetWith, FileStoreDB.getIndex,
      FileStoreDB.getIndexWith, FileStoreDB.db_Get. rewrite Hdb, Hd.
    rewrite decide_True by (rewrite length_put_int64; lia).
    rewrite take_ge by (rewrite length_put_int64; lia).
    rewrite get_put_int64 by lia. cbn [obind].
    rewrite osFile_Seek_start.
    destruct (Z.ltb_spec i 0); [lia|]. cbn [obind fst].
    pose proof (osFile_read_int64_short _ i ltac:(lia) Hds) as Hrd.
    destruct (osFile_read_int64 _) as [cf l]. simpl in Hrd. by subst l.
Qed.

Lemma Get_of_truncated_record_witness :
  let fl := {| FileStoreLog.rootFile := None;
               FileStoreLog.chunkFile := {| fdata := bytes_of "abc"; fpos := 0 |};
               FileStoreLog.refMapFile := {| fdata := []; fpos := 0 |};
               FileStoreLog.rm := {[ Digest refA := 0 ]};
               FileStoreLog.trace := [] |} in
  let fd := {| FileStoreDB.rootFile := None;
               FileStoreDB.chunkFile := {| fdata := bytes_of "abc"; fpos := 0 |};
               FileStoreDB.db := Some {[ Digest refA := put_int64 0 ]};
               FileStoreDB.trace := [] |} in
  (∃ fl', FileStoreLog.Get fl refA = Returns (fl', Some {| limit := 0 |}, None)) ∧
  FileStoreDB.Get fd refA = Panics.
Proof.
  apply (Get_of_truncated_record _ _ {[ Digest refA := put_int64 0 ]} refA 0).
  - split; [discriminate|reflexivity].
  - reflexivity.
  - reflexivity.
  - reflexivity.
  - reflexivity.
  - reflexivity.
Defined.
